(** * A shallow embedding of [dqn2.py]

    The development follows the Python module top to bottom:
    - [ReplayMemory]: the bounded deque of transitions ([push], [sample],
      [len]);
    - [DQN.optimize_model]: the guard on the buffer size, the non-final mask,
      the masked assignment of the target network's values and the
      bootstrapped target [next_state_values * gamma + reward_batch];
    - [EpsilonGreedyPolicy.select_action]: the exponential schedule and the
      step counter;
    - [dqn]: the set-up of the two networks and the soft update of the target
      network.

    Number model.  Tensors are [float32]: their elements are IEEE-754
    binary32 values, modelled bit for bit by the Standard Library's
    [spec_float] with [prec = 24] and [emax = 128].  Python floats that meet
    a tensor ([gamma], [tau]) are binary64 values and are rounded to binary32
    where PyTorch does so.  The exploration schedule is a computation on
    Python floats through [math.exp], which IEEE-754 does not specify.  It is
    given twice: bit for bit in binary64, with the C library's [exp] as an
    interface ([eps_threshold_binary64]), and as the formula over the real
    numbers that this computation rounds ([schedule], [eps_threshold]); the
    branch of [select_action] is taken on the latter.
    Python exceptions are values of [exn]; a computation that raises keeps
    the state it had reached. *)

From Stdlib Require Import ZArith Lia Bool.
From Stdlib Require Import Reals Lra.
From Stdlib Require Import Floats.SpecFloat.
From stdpp Require Import base list gmap strings functions.

Set Default Proof Using "Type".

(** ** Exceptions *)

Inductive exn : Type :=
  | ValueError
  | TypeError
  | RuntimeError
  | KeyError
  | ZeroDivisionError
  | IndexError
  | OverflowError.

Inductive result (A : Type) : Type :=
  | Ok (a : A)
  | Raise (e : exn).
Arguments Ok {A} a.
Arguments Raise {A} e.

#[global] Instance result_ret : MRet result := fun A a => Ok a.

#[global] Instance result_bind : MBind result := fun A B k r =>
  match r with
  | Ok a => k a
  | Raise e => Raise e
  end.

#[global] Instance result_fmap : FMap result := fun A B f r =>
  match r with
  | Ok a => Ok (f a)
  | Raise e => Raise e
  end.

(** ** float32 and float64 *)

Abbreviation f32 := spec_float (only parsing).
Abbreviation f64 := spec_float (only parsing).

Module F32.
Definition prec : Z := 24.
Definition emax : Z := 128.
Definition mul : f32 -> f32 -> f32 := SFmul prec emax.
Definition add : f32 -> f32 -> f32 := SFadd prec emax.
Definition eqb : f32 -> f32 -> bool := SFeqb.
Definition valid : f32 -> bool := valid_binary prec emax.
Definition zero : f32 := S754_zero false.
Definition one : f32 := S754_finite false 8388608 (-23).

(** [static_cast<float>(double)]: round to nearest, ties to even. *)
Definition of_f64 (x : f64) : f32 :=
  match x with
  | S754_finite s m e => binary_round prec emax s m e
  | _ => x
  end.
End F32.

Module F64.
Definition prec : Z := 53.
Definition emax : Z := 1024.
Definition sub : f64 -> f64 -> f64 := SFsub prec emax.
Definition zero : f64 := S754_zero false.
Definition one : f64 := S754_finite false 4503599627370496 (-52).
Definition infinity : f64 := S754_infinity false.
Definition add : f64 -> f64 -> f64 := SFadd prec emax.
Definition mul : f64 -> f64 -> f64 := SFmul prec emax.
Definition div : f64 -> f64 -> f64 := SFdiv prec emax.
Definition valid : f64 -> bool := valid_binary prec emax.
Definition minus_one : f64 := S754_finite true 4503599627370496 (-52).

(** The float nearest to an integer, ties to even. *)
Definition of_Z (n : Z) : f64 := binary_normalize prec emax n 0 false.

(** The real number that a finite float stands for (zero for the others). *)
Definition to_R (x : f64) : R :=
  match x with
  | S754_finite s m e => (IZR (cond_Zopp s (Zpos m)) * powerRZ 2 e)%R
  | _ => 0%R
  end.
End F64.

Definition is_nan (x : spec_float) : bool :=
  match x with S754_nan => true | _ => false end.

Definition is_zero (x : spec_float) : bool :=
  match x with S754_zero _ => true | _ => false end.

(** Finite in the IEEE sense: a zero or a finite non-zero number. *)
Definition is_finite (x : spec_float) : bool :=
  match x with S754_zero _ | S754_finite _ _ _ => true | _ => false end.

Definition is_infinity (x : spec_float) : bool :=
  match x with S754_infinity _ => true | _ => false end.

(** ** Transitions and the replay memory *)

(** A row tensor of shape [(1, D)]. *)
Abbreviation tensor := (list spec_float) (only parsing).

(** [namedtuple('Transition', ('state', 'action', 'next_state', 'reward'))];
    [next_state] is [None] when the episode ended on this step. *)
Record Transition : Type := mkTransition {
  state : tensor;
  action : Z;
  next_state : option tensor;
  reward : f32
}.

(** [deque([], maxlen=capacity)]; the capacity is a natural number ([deque]
    refuses a negative one). *)
Record ReplayMemory : Type := mkReplayMemory {
  maxlen : nat;
  memory : list Transition
}.

Definition ReplayMemory_init (capacity : nat) : ReplayMemory :=
  {| maxlen := capacity; memory := [] |}.

(** [deque.append]: append on the right, then drop the leftmost element when
    the length has passed [maxlen]. *)
Definition deque_append {A} (maxlen : nat) (d : list A) (x : A) : list A :=
  let d' := d ++ [x] in
  if (maxlen <? length d')%nat then tail d' else d'.

Definition push (m : ReplayMemory) (s : tensor) (a : Z) (ns : option tensor)
    (r : f32) : ReplayMemory :=
  {| maxlen := maxlen m;
     memory := deque_append (maxlen m) (memory m) (mkTransition s a ns r) |}.

Definition push_transition (m : ReplayMemory) (t : Transition) : ReplayMemory :=
  push m (state t) (action t) (next_state t) (reward t).

Definition len (m : ReplayMemory) : nat := length (memory m).

(** The pushes of a run, oldest first. *)
Definition push_all (m : ReplayMemory) (ts : list Transition) : ReplayMemory :=
  foldl push_transition m ts.

(** ** The generator of the [random] module

    The generator is an explicit stream of raw outputs and a read position.
    [randbelow n] is the library's [_randbelow]: a value below [n]. *)

Record Random : Type := mkRandom {
  tape : nat -> nat;
  pos : nat
}.

Definition randbelow (n : nat) (g : Random) : nat * Random :=
  (tape g (pos g) mod n, {| tape := tape g; pos := S (pos g) |}).

(** The generator after [k] draws. *)
Definition advance (k : nat) (g : Random) : Random :=
  {| tape := tape g; pos := pos g + k |}.

(** The positions of a list paired with its elements. *)
Definition indexed {A} (l : list A) : list (nat * A) := zip (seq 0 (length l)) l.

(** [random.sample(population, k)] is library code.  It is modelled by the
    library's selection without replacement on a pool: the pool is a copy of
    the population; draw [i] takes the element at a random place among the
    first [n - i] of the pool and moves the last of them into its place.
    (For a large population the library draws positions and redraws those
    already taken, which selects among the same places.)  A [k] above
    [len(population)] raises [ValueError] before any draw. *)
Fixpoint sample_loop {A} (pool : list A) (live : nat) (k : nat) (g : Random)
    : result (list A) * Random :=
  match k with
  | O => (Ok [], g)
  | S k' =>
      let '(j, g1) := randbelow live g in
      match pool !! j, pool !! (live - 1) with
      | Some x, Some y =>
          let '(r, g2) := sample_loop (<[j := y]> pool) (live - 1) k' g1 in
          (xs ← r; Ok (x :: xs), g2)
      | _, _ => (Raise IndexError, g1)
      end
  end.

Definition random_sample {A} (population : list A) (k : nat) (g : Random)
    : result (list A) * Random :=
  let n := length population in
  if (k <=? n)%nat then sample_loop population n k g
  else (Raise ValueError, g).

(** [ReplayMemory.sample]; the result carries the buffer and the generator as
    the call leaves them. *)
Definition sample (m : ReplayMemory) (batch_size : nat) (g : Random)
    : result (list Transition) * (ReplayMemory * Random) :=
  let '(r, g') := random_sample (memory m) batch_size g in (r, (m, g')).

(** ** The value estimator

    What PyTorch supplies is an interface: the evaluation of the three-layer
    network on one input row, the construction of fresh parameters, and the
    update of lines 93 to 102 (Huber loss, [backward], gradient clipping,
    [AdamW.step]).  A state dict maps parameter names to flattened tensors. *)

Class Torch : Type := {
  optim : Type;
  init_parameters : nat -> nat -> nat -> gmap string (list spec_float);
  init_optimizer : gmap string (list spec_float) -> optim;
  forward : gmap string (list spec_float) -> list spec_float -> list spec_float;
  gradient_step :
    gmap string (list spec_float) -> optim ->
    list (list spec_float) -> list Z -> list spec_float ->
    gmap string (list spec_float) * optim;
  (** what [torch.cat] raises on an empty list: the kind of exception has
      changed between releases of the library *)
  cat_empty_error : exn;
  (** the names and sizes of fresh parameters depend on the two widths only *)
  init_shape : forall n_obs n_act seed seed',
    length <$> init_parameters n_obs n_act seed =
    length <$> init_parameters n_obs n_act seed'
}.

(** A [DQN] module: the two widths it was built with, its parameters and its
    optimizer. *)
Record DQN `{Torch} : Type := mkDQN {
  n_observations : nat;
  n_actions : nat;
  parameters : gmap string (list spec_float);
  optimizer : optim
}.

(** [DQN(n_observations, n_actions)]; [seed] stands for the state of
    PyTorch's own generator when the layers are initialised. *)
Definition DQN_init `{Torch} (n_obs n_act seed : nat) : DQN :=
  let p := init_parameters n_obs n_act seed in
  {| n_observations := n_obs; n_actions := n_act;
     parameters := p; optimizer := init_optimizer p |}.

(** [t.max(1)] on one row: the running maximum is replaced when the next
    value is not below or equal to it, and the scan stops at a NaN.
    An empty row raises. *)
Fixpoint max_scan (best : f32) (besti : nat) (i : nat) (row : list f32)
    : f32 * nat :=
  match row with
  | [] => (best, besti)
  | v :: row' =>
      if is_nan best then (best, besti)
      else if SFleb v best then max_scan best besti (S i) row'
      else max_scan v i (S i) row'
  end.

Definition row_max (row : list f32) : result (f32 * nat) :=
  match row with
  | [] => Raise IndexError
  | v :: row' => Ok (max_scan v 0 1 row')
  end.

(** [torch.cat] of a list of rows: an empty list raises. *)
Definition torch_cat `{Torch} {A} (rows : list A) : result (list A) :=
  match rows with
  | [] => Raise cat_empty_error
  | _ => Ok rows
  end.

(** Line 60, the transposition of the batch through [zip]: with no
    transition at all the [Transition] constructor gets no argument and
    raises. *)
Definition transpose_batch (transitions : list Transition)
    : result (list Transition) :=
  match transitions with
  | [] => Raise TypeError
  | _ => Ok transitions
  end.

Definition non_final_mask (batch : list Transition) : list bool :=
  (fun t => match next_state t with Some _ => true | None => false end)
    <$> batch.

Definition non_final_next_states `{Torch} (batch : list Transition)
    : result (list (list spec_float)) :=
  torch_cat (omap next_state batch).

(** [x.gather(1, action_batch)] on one row. *)
Definition gather_row (row : list f32) (a : Z) : result f32 :=
  if (a <? 0)%Z then Raise RuntimeError
  else match row !! Z.to_nat a with
       | Some v => Ok v
       | None => Raise RuntimeError
       end.

(** [mapM] for [result]: the first exception wins. *)
Fixpoint result_mapM {A B} (f : A -> result B) (l : list A) : result (list B) :=
  match l with
  | [] => Ok []
  | x :: l' => y ← f x; ys ← result_mapM f l'; Ok (y :: ys)
  end.

(** [dst[mask] = src]: the values of [src] go, in order, to the marked places
    of [dst]. *)
Fixpoint masked_fill (dst : list f32) (mask : list bool) (src : list f32)
    : list f32 :=
  match dst, mask with
  | d :: dst', true :: mask' =>
      match src with
      | v :: src' => v :: masked_fill dst' mask' src'
      | [] => d :: masked_fill dst' mask' []
      end
  | d :: dst', false :: mask' => d :: masked_fill dst' mask' src
  | _, _ => dst
  end.

Fixpoint count_true (mask : list bool) : nat :=
  match mask with
  | [] => 0
  | true :: mask' => S (count_true mask')
  | false :: mask' => count_true mask'
  end.

Definition masked_assign (dst : list f32) (mask : list bool) (src : list f32)
    : result (list f32) :=
  if decide (length src = count_true mask /\ length mask = length dst)
  then Ok (masked_fill dst mask src)
  else Raise RuntimeError.

(** Lines 84 to 87. *)
Definition next_state_values `{Torch} (target_parameters : gmap string (list spec_float))
    (batch : list Transition) (nfns : list (list spec_float))
    : result (list f32) :=
  vals ← result_mapM (fun s => fst <$> row_max (forward target_parameters s)) nfns;
  masked_assign (replicate (length batch) F32.zero) (non_final_mask batch) vals.

(** Line 90: [(next_state_values * gamma) + reward_batch]; the Python float
    [gamma] is rounded to float32 for the product. *)
Definition expected_state_action_values (nsv : list f32) (gamma : f64)
    (reward_batch : list f32) : list f32 :=
  zip_with F32.add ((fun v => F32.mul v (F32.of_f64 gamma)) <$> nsv) reward_batch.

(** What lines 60 to 90 compute from the sampled transitions. *)
Record Targets : Type := mkTargets {
  state_action_values : list f32;
  nsv : list f32;
  expected : list f32
}.

Definition compute_targets `{Torch}
    (self_parameters target_parameters : gmap string (list spec_float))
    (gamma : f64) (transitions : list Transition) : result Targets :=
  batch ← transpose_batch transitions;
  nfns ← non_final_next_states batch;
  sav ← result_mapM
           (fun t => gather_row (forward self_parameters (state t)) (action t))
           batch;
  nsv ← next_state_values target_parameters batch nfns;
  Ok {| state_action_values := sav; nsv := nsv;
        expected := expected_state_action_values nsv gamma (reward <$> batch) |}.

(** [module.load_state_dict(sd)] with the default [strict=True]: the names
    and the sizes must be those of the module's own parameters; the values
    are then copied in. *)
Definition load_state_dict `{Torch} (m : DQN) (sd : gmap string (list spec_float))
    : result DQN :=
  if decide (length <$> sd = length <$> parameters m)
  then Ok {| n_observations := n_observations m; n_actions := n_actions m;
             parameters := sd; optimizer := optimizer m |}
  else Raise RuntimeError.

(** ** The C library behind [math.exp]

    [math.exp] hands its argument to the C library's [exp] on doubles.  The
    function is a collaborator; of its values only what Annex F of the C
    standard fixes is used: [exp] of a zero, of either sign, is one. *)
Class Libm : Type := {
  libm_exp : f64 -> f64;
  libm_exp_zero : forall s : bool, libm_exp (S754_zero s) = F64.one
}.

(** ** The exploration policy *)

Module EpsilonGreedyPolicy.

Record t : Type := mk {
  steps_done : Z;
  eps_end : R;
  eps_start : R;
  eps_decay : R;
  n_actions : nat
}.

(** [__init__] *)
Definition init (eps_end eps_start eps_decay : R) (n_actions : nat) : t :=
  {| steps_done := 0; eps_end := eps_end; eps_start := eps_start;
     eps_decay := eps_decay; n_actions := n_actions |}.

(** The formula of lines 121 and 122 over the real numbers, as a function
    of the counter. *)
Definition schedule (e_end e_start e_decay : R) (steps : Z) : R :=
  (e_end + (e_start - e_end) * exp (-1 * IZR steps / e_decay))%R.

(** The product of a float and an integer converts the integer to a float;
    an integer that rounds to [2^1024] or beyond raises. *)
Definition float_max_int : Z := 2 ^ 1024 - 2 ^ 970.

Definition float_of_int (n : Z) : result R :=
  if (float_max_int <=? Z.abs n)%Z then Raise OverflowError else Ok (IZR n).

(** Float division raises on a zero divisor. *)
Definition float_div (x y : R) : result R :=
  if Req_dec_T y 0 then Raise ZeroDivisionError else Ok (x / y)%R.

(** [math.exp] raises when the result is beyond the largest float, that
    is, for an argument above [log(DBL_MAX)], here to fifteen digits. *)
Definition exp_max : R := (709782712893384 / 1000000000000)%R.

Definition math_exp (x : R) : result R :=
  if Rlt_dec exp_max x then Raise OverflowError else Ok (exp x).

(** Lines 121 and 122, over the real numbers. *)
Definition eps_threshold (p : t) : result R :=
  n ← float_of_int (steps_done p);
  q ← float_div (-1 * n)%R (eps_decay p);
  e ← math_exp q;
  Ok (eps_end p + (eps_start p - eps_end p) * e)%R.

(** Lines 121 and 122 as Python computes them, in binary64 with every
    operation rounded to nearest; the three parameters are Python floats.
    [-1. * steps_done] converts the integer to the nearest float and raises
    when that is beyond the largest one. *)
Definition float_of_int_binary64 (n : Z) : result f64 :=
  if (float_max_int <=? Z.abs n)%Z then Raise OverflowError
  else Ok (F64.of_Z n).

Definition float_div_binary64 (x y : f64) : result f64 :=
  if is_zero y then Raise ZeroDivisionError else Ok (F64.div x y).

(** The wrapper of the [math] module around the C function: a NaN result
    from an argument that is not NaN raises [ValueError], an infinite result
    from a finite argument raises [OverflowError]. *)
Definition math_exp_binary64 `{Libm} (x : f64) : result f64 :=
  let r := libm_exp x in
  if is_nan r && negb (is_nan x) then Raise ValueError
  else if is_infinity r && is_finite x then Raise OverflowError
  else Ok r.

(** The argument of [math.exp]: [-1. * steps_done / eps_decay]. *)
Definition exponent_binary64 (e_decay : f64) (steps : Z) : result f64 :=
  n ← float_of_int_binary64 steps;
  float_div_binary64 (F64.mul F64.minus_one n) e_decay.

Definition eps_threshold_binary64 `{Libm} (e_end e_start e_decay : f64)
    (steps : Z) : result f64 :=
  q ← exponent_binary64 e_decay steps;
  e ← math_exp_binary64 q;
  Ok (F64.add e_end (F64.mul (F64.sub e_start e_end) e)).

(** [random.random()]: 53 random bits scaled into [0, 1). *)
Definition random_random (g : Random) : R * Random :=
  ((IZR (Z.of_nat (tape g (pos g)) mod 2 ^ 53) / IZR (2 ^ 53))%R,
   {| tape := tape g; pos := S (pos g) |}).

(** [random.randint(0, n - 1)]: an empty range raises. *)
Definition randint0 (n : nat) (g : Random) : result Z * Random :=
  match n with
  | O => (Raise ValueError, g)
  | S _ => let '(j, g') := randbelow n g in (Ok (Z.of_nat j), g')
  end.

Definition increment (p : t) : t :=
  {| steps_done := steps_done p + 1; eps_end := eps_end p;
     eps_start := eps_start p; eps_decay := eps_decay p;
     n_actions := n_actions p |}.

(** [select_action(state, policy_net)]; the result carries the policy and
    the generator as the call leaves them. *)
Definition select_action `{Torch} (p : t) (state : list spec_float)
    (policy_parameters : gmap string (list spec_float)) (g : Random)
    : result Z * (t * Random) :=
  let '(u, g1) := random_random g in
  match eps_threshold p with
  | Raise e => (Raise e, (p, g1))
  | Ok eps =>
      let p' := increment p in
      if Rlt_dec eps u then
        ((fun vi => Z.of_nat (snd vi)) <$> row_max (forward policy_parameters state),
         (p', g1))
      else
        let '(a, g2) := randint0 (n_actions p) g1 in (a, (p', g2))
  end.

End EpsilonGreedyPolicy.

(** ** The objects of a run *)

(** The environment is a collaborator: its two static properties, [reset]
    and [step] (the [info] component is not used).  Observations are lists
    of Python floats and the reward is a Python float. *)
Class Env : Type := {
  env_t : Type;
  state_dims : env_t -> nat;
  action_dims : env_t -> nat;
  env_reset : env_t -> list f64 * env_t;
  env_step : env_t -> Z -> (list f64 * f64 * bool) * env_t
}.

(** The two modules are two objects; a method that receives both may be
    handed the same object twice. *)
Inductive net_ref : Type := policy_net | target_net.

#[global] Instance net_ref_eq_dec : EqDecision net_ref.
Proof. solve_decision. Defined.

Record World `{Torch} `{Env} : Type := mkWorld {
  nets : net_ref -> DQN;
  replay : ReplayMemory;
  gen : Random;
  policy : EpsilonGreedyPolicy.t;
  env : env_t
}.

Definition set_net `{Torch} `{Env} (w : World) (r : net_ref) (m : DQN) : World :=
  {| nets := <[r := m]> (nets w); replay := replay w; gen := gen w;
     policy := policy w; env := env w |}.

Definition set_gen `{Torch} `{Env} (w : World) (g : Random) : World :=
  {| nets := nets w; replay := replay w; gen := g;
     policy := policy w; env := env w |}.

Definition set_replay `{Torch} `{Env} (w : World) (m : ReplayMemory) : World :=
  {| nets := nets w; replay := m; gen := gen w;
     policy := policy w; env := env w |}.

Definition set_policy `{Torch} `{Env} (w : World) (p : EpsilonGreedyPolicy.t)
    : World :=
  {| nets := nets w; replay := replay w; gen := gen w;
     policy := p; env := env w |}.

Definition set_env `{Torch} `{Env} (w : World) (e : env_t) : World :=
  {| nets := nets w; replay := replay w; gen := gen w;
     policy := policy w; env := e |}.

(** ** [DQN.optimize_model]

    [self] and [target] name the module the method is called on and the
    module passed as [target_net]; the memory is the run's buffer. *)
Definition optimize_model `{Torch} `{Env} (self : net_ref) (batch_size : nat)
    (gamma : f64) (target : net_ref) (w : World) : result unit * World :=
  if (len (replay w) <? batch_size)%nat then (Ok (), w)
  else
    let '(r, (mem, g)) := sample (replay w) batch_size (gen w) in
    let w1 := set_gen (set_replay w mem) g in
    match r with
    | Raise e => (Raise e, w1)
    | Ok transitions =>
        match compute_targets (parameters (nets w1 self))
                (parameters (nets w1 target)) gamma transitions with
        | Raise e => (Raise e, w1)
        | Ok tg =>
            let m := nets w1 self in
            let '(p', o') :=
              gradient_step (parameters m) (optimizer m)
                (state <$> transitions) (action <$> transitions)
                (expected tg) in
            (Ok (),
             set_net w1 self
               {| n_observations := n_observations m;
                  n_actions := n_actions m;
                  parameters := p'; optimizer := o' |})
        end
    end.

(** ** [dqn]: set-up, soft update and the loop body *)

Record Config : Type := mkConfig {
  cfg_eps_start : R;
  cfg_eps_end : R;
  cfg_eps_decay : R;
  cfg_gamma : f64;
  cfg_N : nat;
  cfg_tau : f64;
  cfg_batch_size : nat
}.

(** Lines 151 to 162. *)
Definition dqn_setup `{Torch} `{Env} (cfg : Config) (e : env_t) (seed : nat)
    (g : Random) : result World :=
  let n_actions := state_dims e in
  let n_observations := action_dims e in
  let policy_net0 := DQN_init n_observations n_actions seed in
  let target_net0 := DQN_init n_observations n_actions (S seed) in
  target_net1 ← load_state_dict target_net0 (parameters policy_net0);
  Ok {| nets := fun r => match r with
                         | policy_net => policy_net0
                         | target_net => target_net1
                         end;
        replay := ReplayMemory_init (cfg_N cfg);
        gen := g;
        policy := EpsilonGreedyPolicy.init (cfg_eps_end cfg) (cfg_eps_start cfg)
                    (cfg_eps_decay cfg) n_actions;
        env := e |}.

(** [a * tau + b * (1 - tau)] on two tensors, element by element; [tau] and
    the Python float [1 - tau] are rounded to float32 for the products.  The
    two modules come from the same constructor call, so the operands have
    the same shape; operands of different sizes raise here (broadcasting is
    not modelled). *)
Definition blend_elem (tau : f64) (a b : f32) : f32 :=
  F32.add (F32.mul a (F32.of_f64 tau))
          (F32.mul b (F32.of_f64 (F64.sub F64.one tau))).

Definition blend (tau : f64) (a b : list f32) : result (list f32) :=
  if decide (length a = length b) then Ok (zip_with (blend_elem tau) a b)
  else Raise RuntimeError.

(** Lines 193 and 194: the loop over the keys of the policy's state dict. *)
Fixpoint soft_update_loop (tau : f64) (items : list (string * list f32))
    (target_sd : gmap string (list f32)) : result (gmap string (list f32)) :=
  match items with
  | [] => Ok target_sd
  | (key, a) :: items' =>
      match target_sd !! key with
      | None => Raise KeyError
      | Some b =>
          v ← blend tau a b;
          soft_update_loop tau items' (<[key := v]> target_sd)
      end
  end.

(** Lines 190 to 196. *)
Definition soft_update `{Torch} `{Env} (tau : f64) (w : World)
    : result unit * World :=
  let target_net_state_dict := parameters (nets w target_net) in
  let policy_net_state_dict := parameters (nets w policy_net) in
  match soft_update_loop tau (map_to_list policy_net_state_dict)
          target_net_state_dict with
  | Raise e => (Raise e, w)
  | Ok sd =>
      match load_state_dict (nets w target_net) sd with
      | Raise e => (Raise e, w)
      | Ok m => (Ok (), set_net w target_net m)
      end
  end.

(** The soft update run [n] times in a row, stopping at the first exception. *)
Fixpoint soft_updates `{Torch} `{Env} (tau : f64) (n : nat) (w : World)
    : result unit * World :=
  match n with
  | O => (Ok (), w)
  | S n' =>
      match soft_update tau w with
      | (Ok _, w') => soft_updates tau n' w'
      | (Raise e, w') => (Raise e, w')
      end
  end.

(** Every element of every tensor of a state dict satisfies [P]. *)
Definition all_elems (P : f32 -> Prop) (sd : gmap string (list f32)) : Prop :=
  map_Forall (fun _ t => Forall P t) sd.

(** [torch.tensor(x, dtype=torch.float32)] of a list of Python floats. *)
Definition to_tensor (x : list f64) : list f32 := F32.of_f64 <$> x.

(** Lines 166 and 167: the start of an episode. *)
Definition dqn_reset `{Torch} `{Env} (w : World) : list f32 * World :=
  let '(s, e) := env_reset (env w) in (to_tensor s, set_env w e).

(** Lines 170 to 196: one pass through the body of the inner loop, from the
    current [state]; the result is the next state ([None] when done).
    Line 172 gives [torch.tensor] no dtype: the reward, a Python float here,
    is stored as a float32. *)
Definition dqn_step `{Torch} `{Env} (cfg : Config) (state : list f32) (w : World)
    : result (option (list f32)) * World :=
  let '(a, (p, g)) :=
    EpsilonGreedyPolicy.select_action (policy w) state
      (parameters (nets w policy_net)) (gen w) in
  let w1 := set_gen (set_policy w p) g in
  match a with
  | Raise e => (Raise e, w1)
  | Ok action =>
      let '((observation, r, done), e) := env_step (env w1) action in
      let w2 := set_env w1 e in
      let reward := F32.of_f64 r in
      let next_state := if done then None else Some (to_tensor observation) in
      let w3 := set_replay w2 (push (replay w2) state action next_state reward) in
      match optimize_model policy_net (cfg_batch_size cfg) (cfg_gamma cfg)
              target_net w3 with
      | (Raise e, w4) => (Raise e, w4)
      | (Ok _, w4) =>
          match soft_update (cfg_tau cfg) w4 with
          | (Raise e, w5) => (Raise e, w5)
          | (Ok _, w5) => (Ok next_state, w5)
          end
      end
  end.

(** A run of [dqn] after set-up is a sequence of episode starts and passes
    through the loop body (completed or cut short by an exception). *)
Inductive run_event `{Torch} `{Env} (cfg : Config) : World -> World -> Prop :=
  | run_reset w : run_event cfg w (snd (dqn_reset w))
  | run_body w state : run_event cfg w (snd (dqn_step cfg state w)).

(** ** Small instances used to exercise the definitions *)

Module Fixture.

(** An estimator with one output column of constant value one, whose
    training step leaves the parameters alone. *)
Definition constant_torch : Torch := {|
  optim := unit;
  init_parameters := fun _ _ _ => ∅;
  init_optimizer := fun _ => ();
  forward := fun _ _ => [F32.one];
  gradient_step := fun p o _ _ _ => (p, o);
  cat_empty_error := ValueError;
  init_shape := fun _ _ _ _ => eq_refl
|}.

Definition counting : Random := {| tape := fun i => i; pos := 0 |}.

Definition terminal (r : f32) : Transition :=
  {| state := [F32.zero]; action := 0; next_state := None; reward := r |}.

Definition non_terminal (r : f32) : Transition :=
  {| state := [F32.zero]; action := 0; next_state := Some [F32.one];
     reward := r |}.

Definition two : f32 := S754_finite false 8388608 (-22).


(** A stand-in for the C library's [exp] that is exact where the result is
    a float (at the zeros and at the infinities) and goes to the end of the
    range everywhere else: zero below, infinity above. *)
Definition coarse_libm : Libm := {|
  libm_exp := fun x =>
    match x with
    | S754_zero _ => F64.one
    | S754_nan => S754_nan
    | S754_infinity true | S754_finite true _ _ => F64.zero
    | S754_infinity false | S754_finite false _ _ => F64.infinity
    end;
  libm_exp_zero := fun _ => eq_refl
|}.

(** The binary64 values of [0.03], [0.3], [0.30000000000000004] and
    [1000.0]. *)
Definition d0_03 : f64 := S754_finite false 8646911284551352 (-58).
Definition d0_3 : f64 := S754_finite false 5404319552844595 (-54).
Definition d0_3_up : f64 := S754_finite false 5404319552844596 (-54).
Definition d1000 : f64 := S754_finite false 8796093022208000 (-43).

(** An environment with one state that ends every episode at once. *)
Definition unit_env : Env := {|
  env_t := unit;
  state_dims := fun _ => 1;
  action_dims := fun _ => 1;
  env_reset := fun _ => ([F64.zero], ());
  env_step := fun _ _ => (([F64.zero], F64.one, true), ())
|}.

Definition net (p : gmap string (list f32)) : @DQN constant_torch :=
  @mkDQN constant_torch 1 1 p tt.

Definition world (pol tgt : gmap string (list f32)) (mem : ReplayMemory)
    (eps_decay : R) : @World constant_torch unit_env :=
  @mkWorld constant_torch unit_env
    (fun r => match r with
              | policy_net => net pol
              | target_net => net tgt
              end)
    mem counting (EpsilonGreedyPolicy.init 0.05 0.9 eps_decay 1) tt.

Definition config : Config :=
  {| cfg_eps_start := 0.9; cfg_eps_end := 0.05; cfg_eps_decay := 1000;
     cfg_gamma := F64.one; cfg_N := 4; cfg_tau := F64.one;
     cfg_batch_size := 5 |}.

(** An environment whose episodes last two steps; its state says whether
    the first step has been taken. *)
Definition two_step_env : Env := {|
  env_t := bool;
  state_dims := fun _ => 1;
  action_dims := fun _ => 1;
  env_reset := fun _ => ([F64.zero], false);
  env_step := fun stepped _ => (([F64.one], F64.one, stepped), true)
|}.

Definition two_step_world (mem : ReplayMemory)
    : @World constant_torch two_step_env :=
  @mkWorld constant_torch two_step_env (fun _ => net ∅) mem counting
    (EpsilonGreedyPolicy.init 0.05 0.9 1000 1) false.

End Fixture.

(** Lines 169 to 199: the inner loop from the current [state], for at most
    [fuel] passes.  The outcome [Some t] says that the environment signalled
    [done] on pass [t]; [None] says that the episode was still running after
    [fuel] passes. *)
Fixpoint episode `{Torch} `{Env} (fuel : nat) (cfg : Config) (state : list f32)
    (w : World) : result (option nat) * World :=
  match fuel with
  | O => (Ok None, w)
  | S fuel' =>
      match dqn_step cfg state w with
      | (Raise e, w') => (Raise e, w')
      | (Ok None, w') => (Ok (Some 1), w')
      | (Ok (Some state'), w') =>
          match episode fuel' cfg state' w' with
          | (Ok (Some t), w'') => (Ok (Some (S t)), w'')
          | r => r
          end
      end
  end.

(** Lines 164 to 199: [episodes] episodes, each of at most [fuel] passes; the
    outcome [Some n] is the number of passes of the whole run. *)
Fixpoint dqn_episodes `{Torch} `{Env} (fuel : nat) (cfg : Config)
    (episodes : nat) (w : World) : result (option nat) * World :=
  match episodes with
  | O => (Ok (Some 0), w)
  | S episodes' =>
      let '(state, w1) := dqn_reset w in
      match episode fuel cfg state w1 with
      | (Ok (Some t), w2) =>
          match dqn_episodes fuel cfg episodes' w2 with
          | (Ok (Some n), w3) => (Ok (Some (t + n)), w3)
          | r => r
          end
      | r => r
      end
  end.

(** [dqn]: the set-up, then the episodes. *)
Definition dqn `{Torch} `{Env} (cfg : Config) (episodes fuel : nat) (e : env_t)
    (seed : nat) (g : Random) : result (option nat) * option World :=
  match dqn_setup cfg e seed g with
  | Raise err => (Raise err, None)
  | Ok w => let '(r, w') := dqn_episodes fuel cfg episodes w in (r, Some w')
  end.

(** The transitions of one episode from [s]: each starts where the one
    before it led, and the last one, and only it, is terminal. *)
Inductive chain : list f32 -> list Transition -> Prop :=
  | chain_last t :
      next_state t = None -> chain (state t) [t]
  | chain_step t s' trail :
      next_state t = Some s' -> chain s' trail -> chain (state t) (t :: trail).

(** * Properties *)

(** ** The replay memory *)

Section replay_memory.
Implicit Types (m : ReplayMemory) (t : Transition) (ts : list Transition).

Lemma push_transition_memory m t :
  memory (push_transition m t) = deque_append (maxlen m) (memory m) t.
Proof. by destruct t. Qed.

Lemma push_transition_maxlen m t : maxlen (push_transition m t) = maxlen m.
Proof. done. Qed.

Lemma deque_append_drop {A} (n : nat) (d : list A) (x : A) :
  length d <= n ->
  deque_append n d x = drop (length (d ++ [x]) - n) (d ++ [x]).
Proof.
  intros Hd. unfold deque_append. rewrite length_app. simpl.
  destruct (Nat.ltb_spec n (length d + 1)) as [Hlt|Hge].
  - replace (length d + 1 - n) with 1 by lia. by destruct (d ++ [x]).
  - by replace (length d + 1 - n) with 0 by lia.
Qed.

Lemma push_all_maxlen m ts : maxlen (push_all m ts) = maxlen m.
Proof.
  revert m. induction ts as [|t ts IH]; intros m; [done|].
  simpl. by rewrite IH.
Qed.

(** From any buffer within its capacity, the pushes leave the last
    [maxlen] elements of the old content followed by the new ones. *)
Lemma push_all_memory m ts :
  len m <= maxlen m ->
  memory (push_all m ts) =
    drop (length (memory m ++ ts) - maxlen m) (memory m ++ ts).
Proof.
  unfold len. revert m. induction ts as [|t ts IH]; intros m Hm.
  - simpl. rewrite app_nil_r.
    by replace (length (memory m) - maxlen m) with 0 by lia.
  - simpl. rewrite IH.
    + rewrite push_transition_memory, push_transition_maxlen.
      rewrite deque_append_drop by done.
      set (c := length (memory m ++ [t]) - maxlen m).
      assert (c <= length (memory m ++ [t])) by lia.
      rewrite <- drop_app_le by done.
      rewrite drop_drop, <- (assoc_L (++)). simpl.
      f_equal. rewrite length_drop. subst c.
      rewrite !length_app. simpl. lia.
    + rewrite push_transition_memory, push_transition_maxlen.
      rewrite deque_append_drop by done.
      rewrite length_drop, length_app. simpl. lia.
Qed.
End replay_memory.

(** C3.  A buffer of capacity [N] never holds more than [N] transitions,
    whatever is pushed; it holds the last [N] of the pushed transitions in
    the order they were pushed, so after [N + k] pushes with [k >= 1] its
    size is [N] and the first [k] pushes are gone. *)
Theorem replay_memory_keeps_most_recent (N : nat) (ts : list Transition) :
  let m := push_all (ReplayMemory_init N) ts in
  len m <= N /\
  memory m = drop (length ts - N) ts /\
  forall k, 1 <= k -> length ts = N + k ->
    len m = N /\ memory m = drop k ts.
Proof.
  intros m.
  assert (Hmem : memory m = drop (length ts - N) ts).
  { subst m. rewrite push_all_memory by (cbn; lia). done. }
  unfold len. rewrite Hmem, length_drop. split_and!; [lia|done|].
  intros k Hk Hlen. split; [lia|]. f_equal. lia.
Qed.

Lemma replay_memory_keeps_most_recent_witness :
  let t i := mkTransition [] i None F32.zero in
  let m := push_all (ReplayMemory_init 2) [t 0; t 1; t 2]%Z in
  len m = 2 /\ memory m = [t 1; t 2]%Z.
Proof.
  intros t m.
  destruct (replay_memory_keeps_most_recent 2 [t 0; t 1; t 2]%Z)
    as (_ & _ & Hk).
  apply (Hk 1); [lia | reflexivity].
Defined.

(** ** Sampling *)

Section sampling.
Context {A : Type}.
Implicit Types (pool : list A) (g : Random).

Lemma advance_0 g : advance 0 g = g.
Proof. destruct g. unfold advance. simpl. f_equal. lia. Qed.

Lemma advance_S k g :
  advance k {| tape := tape g; pos := S (pos g) |} = advance (S k) g.
Proof. unfold advance. simpl. f_equal. lia. Qed.

(** One draw: the chosen element leaves the live prefix, the rest of the
    prefix stays. *)
Lemma pool_step pool live j x y :
  0 < live <= length pool -> j < live ->
  pool !! j = Some x -> pool !! (live - 1) = Some y ->
  take (live - 1) (<[j := y]> pool) ++ [x] ≡ₚ take live pool.
Proof.
  intros Hlive Hj Hx Hy.
  destruct live as [|n]; [lia|].
  replace (S n - 1) with n in * by lia.
  rewrite (take_S_r pool n y) by done.
  destruct (decide (j = n)) as [->|Hne].
  - rewrite take_insert_ge by lia.
    assert (x = y) as -> by congruence. done.
  - rewrite take_insert_lt by lia.
    assert (Hx' : take n pool !! j = Some x).
    { rewrite lookup_take_lt by lia. done. }
    rewrite insert_take_drop by (apply lookup_lt_Some in Hx'; done).
    rewrite <- (take_drop_middle (take n pool) j x Hx') at 3.
    solve_Permutation.
Qed.

Lemma sample_loop_spec pool live k g :
  k <= live <= length pool -> NoDup (take live pool) ->
  exists xs,
    sample_loop pool live k g = (Ok xs, advance k g) /\
    length xs = k /\ NoDup xs /\ xs ⊆ take live pool.
Proof.
  revert pool live g. induction k as [|k IH]; intros pool live g Hk Hnd.
  - exists []. rewrite advance_0. split_and!; [done|done|constructor|].
    apply list_subseteq_nil.
  - simpl.
    set (j := tape g (pos g) mod live).
    assert (Hj : j < live) by (apply Nat.mod_upper_bound; lia).
    destruct (lookup_lt_is_Some_2 pool j) as [x Hx]; [lia|].
    destruct (lookup_lt_is_Some_2 pool (live - 1)) as [y Hy]; [lia|].
    rewrite Hx, Hy.
    pose proof (pool_step pool live j x y ltac:(lia) Hj Hx Hy) as Hperm.
    assert (Hnd' : NoDup (take (live - 1) (<[j := y]> pool) ++ [x])).
    { by rewrite Hperm. }
    apply list.NoDup_app in Hnd' as (Hnd1 & Hnotin & _).
    destruct (IH (<[j := y]> pool) (live - 1)
                {| tape := tape g; pos := S (pos g) |}) as (xs & -> & Hlen & Hndxs & Hsub).
    { rewrite length_insert. lia. }
    { done. }
    exists (x :: xs). rewrite advance_S. split_and!.
    + done.
    + simpl. lia.
    + constructor; [|done]. intros Hin. apply (Hnotin x); [by apply Hsub|].
      apply list_elem_of_singleton. done.
    + intros z Hz. rewrite <- Hperm. apply elem_of_app.
      apply elem_of_cons in Hz as [->|Hz].
      * right. by apply list_elem_of_singleton.
      * left. by apply Hsub.
Qed.

Lemma sample_loop_fmap {B} (f : A -> B) pool live k g :
  sample_loop (f <$> pool) live k g =
    (fmap (M := result) (fmap (M := list) f) (sample_loop pool live k g).1,
     (sample_loop pool live k g).2).
Proof.
  revert pool live g. induction k as [|k IH]; intros pool live g; [done|].
  simpl. rewrite !list_lookup_fmap.
  destruct (pool !! _) as [x|]; simpl; [|done].
  destruct (pool !! _) as [y|]; simpl; [|done].
  rewrite <- list_fmap_insert, IH.
  destruct (sample_loop _ _ _ _) as [[xs|e] g2]; done.
Qed.
End sampling.

Lemma indexed_snd {A} (l : list A) : snd <$> indexed l = l.
Proof. unfold indexed. rewrite snd_zip; [done|]. rewrite length_seq. lia. Qed.

Lemma indexed_fst {A} (l : list A) : fst <$> indexed l = seq 0 (length l).
Proof. unfold indexed. rewrite fst_zip; [done|]. rewrite length_seq. lia. Qed.

Lemma indexed_elem {A} (l : list A) i x : (i, x) ∈ indexed l -> l !! i = Some x.
Proof.
  unfold indexed. intros Hin.
  apply list_elem_of_lookup in Hin as [n Hn].
  apply lookup_zip_with_Some in Hn as (a & b & Heq & Ha & Hb).
  injection Heq as -> ->.
  apply lookup_seq in Ha as [-> _]. done.
Qed.

Lemma indexed_NoDup {A} (l : list A) : NoDup (indexed l).
Proof.
  apply (NoDup_fmap_1 fst). rewrite indexed_fst. apply NoDup_seq.
Qed.

(** [random.sample] with [k] within the population: [k] elements, read at
    pairwise distinct positions of the population. *)
Lemma random_sample_spec {A} (population : list A) (k : nat) (g : Random) :
  k <= length population ->
  exists (xs : list A) (idxs : list nat),
    random_sample population k g = (Ok xs, advance k g) /\
    length xs = k /\ NoDup idxs /\
    Forall2 (fun x i => population !! i = Some x) xs idxs.
Proof.
  intros Hk. unfold random_sample.
  destruct (Nat.leb_spec k (length population)) as [_|?]; [|lia].
  destruct (sample_loop_spec (indexed population) (length population) k g)
    as (ps & Hps & Hlen & Hnd & Hsub).
  { unfold indexed. rewrite length_zip_with, length_seq. lia. }
  { eapply sublist_NoDup; [apply indexed_NoDup | apply sublist_take]. }
  exists (snd <$> ps), (fst <$> ps).
  rewrite <- (indexed_snd population) at 1.
  rewrite sample_loop_fmap, Hps. simpl. split_and!.
  - done.
  - by rewrite length_fmap.
  - apply NoDup_fmap_2_strong; [|done].
    intros [i x] [i' x'] Hin Hin' Heq. simpl in Heq. subst i'.
    apply Hsub, subseteq_take, indexed_elem in Hin.
    apply Hsub, subseteq_take, indexed_elem in Hin'. congruence.
  - apply Forall2_fmap, Forall_Forall2_diag, list.Forall_forall.
    intros [i x] Hin. simpl. apply indexed_elem.
    eapply subseteq_take. by apply Hsub.
Qed.

(** C8.  With [k] at most the size, [sample k] returns [k] transitions read
    at pairwise distinct positions of the buffer, each of which the buffer
    holds, and leaves the buffer as it was. *)
Theorem sample_returns_k_distinct_positions (m : ReplayMemory) (k : nat)
    (g : Random) :
  k <= len m ->
  exists (ts : list Transition) (idxs : list nat) (g' : Random),
    sample m k g = (Ok ts, (m, g')) /\
    length ts = k /\ length idxs = k /\ NoDup idxs /\
    Forall2 (fun t i => memory m !! i = Some t) ts idxs /\
    Forall (fun t => t ∈ memory m) ts.
Proof.
  intros Hk.
  destruct (random_sample_spec (memory m) k g Hk) as (ts & idxs & Hs & Hlen & Hnd & Hall).
  exists ts, idxs, (advance k g). unfold sample. rewrite Hs.
  split_and!; try done.
  { apply Forall2_length in Hall. lia. }
  apply list.Forall_forall. intros t Ht.
  apply list_elem_of_lookup in Ht as [n Hn].
  destruct (Forall2_lookup_l _ _ _ _ _ Hall Hn) as (i & _ & Hi).
  by apply list_elem_of_lookup_2 in Hi.
Qed.

(** C10.  With [k] above the size, [sample k] raises [ValueError]; nothing is
    returned, and neither the buffer nor the generator has moved. *)
Theorem sample_above_size_raises (m : ReplayMemory) (k : nat) (g : Random) :
  len m < k -> sample m k g = (Raise ValueError, (m, g)).
Proof.
  intros Hk. unfold sample, random_sample.
  destruct (Nat.leb_spec k (length (memory m))) as [Hle|_]; [|done].
  unfold len in Hk. lia.
Qed.

Lemma sample_returns_k_distinct_positions_witness :
  let m := push_all (ReplayMemory_init 3)
             [Fixture.terminal F32.zero; Fixture.non_terminal F32.one;
              Fixture.terminal F32.one] in
  2 <= len m /\
  exists ts idxs g',
    sample m 2 Fixture.counting = (Ok ts, (m, g')) /\
    length ts = 2 /\ length idxs = 2 /\ NoDup idxs /\
    Forall2 (fun t i => memory m !! i = Some t) ts idxs /\
    Forall (fun t => t ∈ memory m) ts.
Proof.
  intros m. split; [cbn; lia|].
  apply (sample_returns_k_distinct_positions m 2 Fixture.counting). cbn. lia.
Defined.

Lemma sample_above_size_raises_witness :
  let m := push_all (ReplayMemory_init 3) [Fixture.terminal F32.zero] in
  len m < 2 /\ sample m 2 Fixture.counting = (Raise ValueError, (m, Fixture.counting)).
Proof.
  intros m. split; [cbn; lia|].
  apply (sample_above_size_raises m 2 Fixture.counting). cbn. lia.
Defined.

(** ** IEEE facts used below *)

Section ieee.
Implicit Types (x y z r : spec_float).

Lemma SFcompare_refl x : is_nan x = false -> SFcompare x x = Some Eq.
Proof.
  destruct x as [s|s| |s m e]; try done; simpl.
  - by destruct s.
  - intros _. rewrite Z.compare_refl, Pos.compare_cont_refl. by destruct s.
Qed.

Lemma SFeqb_refl x : is_nan x = false -> SFeqb x x = true.
Proof. intros Hx. unfold SFeqb. by rewrite SFcompare_refl. Qed.

Lemma SFeqb_zeros x y : is_zero x = true -> is_zero y = true -> SFeqb x y = true.
Proof. by destruct x, y. Qed.

Lemma mul_zero_l x y :
  is_zero x = true -> is_finite y = true -> is_zero (F32.mul x y) = true.
Proof. by destruct x, y. Qed.

Lemma mul_zero_r x y :
  is_finite x = true -> is_zero y = true -> is_zero (F32.mul x y) = true.
Proof. by destruct x, y. Qed.

Lemma add_zero_l_eq z r :
  is_zero z = true -> is_zero r = false -> F32.add z r = r.
Proof. by destruct z, r. Qed.

Lemma add_zero_r_eq r z :
  is_zero z = true -> is_zero r = false -> F32.add r z = r.
Proof. by destruct z, r. Qed.

Lemma add_zeros z r :
  is_zero z = true -> is_zero r = true -> is_zero (F32.add z r) = true.
Proof. destruct z as [[]| | |], r as [[]| | |]; done. Qed.

Lemma add_zero_l_eqb z r :
  is_zero z = true -> is_nan r = false -> F32.eqb (F32.add z r) r = true.
Proof.
  intros Hz Hr. destruct (is_zero r) eqn:Hr0.
  - apply SFeqb_zeros; [by apply add_zeros|done].
  - rewrite add_zero_l_eq by done. by apply SFeqb_refl.
Qed.

Lemma add_zero_r_eqb r z :
  is_zero z = true -> is_nan r = false -> F32.eqb (F32.add r z) r = true.
Proof.
  intros Hz Hr. destruct (is_zero r) eqn:Hr0.
  - apply SFeqb_zeros; [|done]. by destruct z as [[]| | |], r as [[]| | |].
  - rewrite add_zero_r_eq by done. by apply SFeqb_refl.
Qed.

(** A zero added to [r] gives [r] itself, [+0.0] included: only [-0.0] can
    lose its sign (to a [+0.0] on the other side). *)
Lemma add_zero_l_id z r :
  is_zero z = true -> r <> S754_zero true -> F32.add z r = r.
Proof. destruct z as [[]| | |], r as [[]| | |]; done. Qed.

Lemma add_zero_r_id r z :
  is_zero z = true -> r <> S754_zero true -> F32.add r z = r.
Proof. destruct z as [[]| | |], r as [[]| | |]; done. Qed.

(** The same two facts in any format. *)
Lemma SFmul_zero_r prec emax x y :
  is_finite x = true -> is_zero y = true -> is_zero (SFmul prec emax x y) = true.
Proof. by destruct x, y. Qed.

Lemma SFadd_zero_r prec emax r z :
  is_zero z = true ->
  (r <> S754_zero true -> SFadd prec emax r z = r) /\
  (is_nan r = false -> SFeqb (SFadd prec emax r z) r = true).
Proof.
  intros Hz. destruct z as [sz| | |]; try done.
  destruct r as [sr|sr| |sr m e].
  - by destruct sr, sz.
  - by destruct sr.
  - done.
  - split; intros Hr; [done|].
    change (SFadd prec emax (S754_finite sr m e) (S754_zero sz))
      with (S754_finite sr m e).
    by apply SFeqb_refl.
Qed.
End ieee.

(** ** The bootstrapped target *)

Section targets.
Context `{Torch}.
Implicit Types (batch : list Transition) (mask : list bool).

Lemma result_mapM_Ok {A B} (f : A -> result B) (l : list A) :
  Forall (fun x => exists y, f x = Ok y) l ->
  exists ys, result_mapM f l = Ok ys /\ length ys = length l.
Proof.
  induction 1 as [|x l [y Hy] _ (ys & Hys & Hlen)].
  - by exists [].
  - exists (y :: ys). simpl. rewrite Hy, Hys. simpl. by rewrite Hlen.
Qed.

(** A place the mask does not mark keeps the value it had. *)
Lemma masked_fill_unmarked (dst : list f32) mask (src : list f32) (i : nat) :
  mask !! i = Some false -> masked_fill dst mask src !! i = dst !! i.
Proof.
  revert mask src i.
  induction dst as [|d dst IH]; intros [|b mask] src i Hi; try done.
  destruct b, src as [|v src], i as [|i]; simpl in *; try done; by apply IH.
Qed.

Lemma masked_fill_length (dst : list f32) mask (src : list f32) :
  length (masked_fill dst mask src) = length dst.
Proof.
  revert mask src.
  induction dst as [|d dst IH]; intros [|[] mask] src; try done.
  - destruct src; simpl; by rewrite IH.
  - simpl. by rewrite IH.
Qed.

Lemma non_final_count batch :
  length (omap next_state batch) = count_true (non_final_mask batch).
Proof.
  induction batch as [|t batch IH]; [done|].
  unfold non_final_mask in *. rewrite fmap_cons. cbn.
  destruct (next_state t); cbn; by rewrite IH.
Qed.

Lemma non_final_mask_terminal batch i t :
  batch !! i = Some t -> next_state t = None ->
  non_final_mask batch !! i = Some false.
Proof.
  intros Hi Ht. unfold non_final_mask.
  by rewrite list_lookup_fmap, Hi; simpl; rewrite Ht.
Qed.

(** The rows of a terminal transition in [next_state_values] and in the
    expected values. *)
Lemma next_state_values_terminal target_parameters batch nfns vs i t :
  next_state_values target_parameters batch nfns = Ok vs ->
  batch !! i = Some t -> next_state t = None ->
  vs !! i = Some F32.zero.
Proof.
  unfold next_state_values. intros Hvs Hi Ht.
  destruct (result_mapM _ nfns) as [vals|e]; [|done]. simpl in Hvs.
  unfold masked_assign in Hvs. case_decide; [|done].
  injection Hvs as <-.
  rewrite masked_fill_unmarked by eauto using non_final_mask_terminal.
  apply lookup_replicate_2. by apply lookup_lt_Some in Hi.
Qed.

Lemma next_state_values_length target_parameters batch nfns vs :
  next_state_values target_parameters batch nfns = Ok vs ->
  length vs = length batch.
Proof.
  unfold next_state_values. intros Hvs.
  destruct (result_mapM _ nfns) as [vals|e]; [|done]. simpl in Hvs.
  unfold masked_assign in Hvs. case_decide as Hd; [|done].
  injection Hvs as <-.
  by rewrite masked_fill_length, length_replicate.
Qed.
Lemma compute_targets_inv self_parameters target_parameters gamma batch tg :
  compute_targets self_parameters target_parameters gamma batch = Ok tg ->
  exists nfns,
    non_final_next_states batch = Ok nfns /\
    next_state_values target_parameters batch nfns = Ok (nsv tg) /\
    expected tg =
      expected_state_action_values (nsv tg) gamma (reward <$> batch).
Proof.
  unfold compute_targets. intros Htg.
  destruct batch as [|t batch]; [done|]. simpl in Htg.
  destruct (non_final_next_states (t :: batch)) as [nfns|e]; [|done].
  simpl in Htg. destruct (gather_row _ _) as [v|e]; [|done]. simpl in Htg.
  destruct (result_mapM _ batch) as [sav|e]; [|done]. simpl in Htg.
  destruct (next_state_values _ _ nfns) as [vs|e] eqn:Hvs; [|done].
  simpl in Htg. injection Htg as <-. by exists nfns.
Qed.

(** Lines 60 to 90 go through when the batch has a non-final transition,
    every action indexes a column of the acting estimator's output, and
    the target estimator has at least one output column. *)
Lemma compute_targets_returns self_parameters target_parameters gamma batch :
  Exists (fun t => is_Some (next_state t)) batch ->
  Forall (fun t => (0 <= action t)%Z /\
            Z.to_nat (action t) < length (forward self_parameters (state t)))
         batch ->
  Forall (fun t => forall s, next_state t = Some s ->
            forward target_parameters s <> []) batch ->
  exists tg, compute_targets self_parameters target_parameters gamma batch = Ok tg.
Proof.
  intros Hnf Hact Hcol. unfold compute_targets.
  assert (Hb : transpose_batch batch = Ok batch).
  { destruct batch; [by apply Exists_nil in Hnf|done]. }
  rewrite Hb. simpl.
  assert (Hcat : non_final_next_states batch = Ok (omap next_state batch)).
  { unfold non_final_next_states, torch_cat.
    destruct (omap next_state batch) eqn:Ho; [|done].
    exfalso. apply list.Exists_exists in Hnf as (t & Hin & [s Hs]).
    assert (Hs' : s ∈ omap next_state batch).
    { apply list_elem_of_omap. eauto. }
    rewrite Ho in Hs'. by apply elem_of_nil in Hs'. }
  rewrite Hcat. simpl.
  destruct (result_mapM_Ok
              (fun t => gather_row (forward self_parameters (state t)) (action t))
              batch) as (sav & -> & _).
  { eapply list.Forall_impl; [exact Hact|]. intros t [Hpos Hlt]. simpl.
    unfold gather_row. destruct (Z.ltb_spec (action t) 0) as [?|_]; [lia|].
    destruct (lookup_lt_is_Some_2 _ _ Hlt) as [v ->]. eauto. }
  simpl. unfold next_state_values.
  destruct (result_mapM_Ok
              (fun s => fst <$> row_max (forward target_parameters s))
              (omap next_state batch)) as (vals & -> & Hlen).
  { apply list.Forall_forall. intros s Hs.
    apply list_elem_of_omap in Hs as (t & Hin & Hs).
    rewrite list.Forall_forall in Hcol. specialize (Hcol t Hin s Hs).
    destruct (forward target_parameters s); [done|]. simpl. eauto. }
  simpl. unfold masked_assign. rewrite decide_True.
  - simpl. eauto.
  - rewrite Hlen, non_final_count. unfold non_final_mask.
    by rewrite length_fmap, length_replicate.
Qed.

Lemma terminal_rows self_parameters target_parameters gamma batch tg i t :
  compute_targets self_parameters target_parameters gamma batch = Ok tg ->
  batch !! i = Some t -> next_state t = None ->
  nsv tg !! i = Some F32.zero /\
  expected tg !! i =
    Some (F32.add (F32.mul F32.zero (F32.of_f64 gamma)) (reward t)).
Proof.
  intros (nfns & _ & Hvs & ->)%compute_targets_inv Hi Ht.
  pose proof (next_state_values_terminal _ _ _ _ _ _ Hvs Hi Ht) as Hz.
  split; [done|]. unfold expected_state_action_values.
  by rewrite lookup_zip_with, !list_lookup_fmap, Hz, Hi.
Qed.
End targets.

(** C1 (amended).  On every batch for which lines 60 to 90 go through (it
    has a non-final transition, every action indexes a column of the acting
    estimator's output, the target estimator has an output column), every
    row of a terminal transition has a [next_state_values] entry that is
    exactly [+0.0], and its expected value is [0.0 * gamma + reward] in
    float32; when [gamma] is finite as a float32, that value compares equal
    to the reward (for a reward that is not NaN) and is the reward itself
    (for a reward that is not a zero). *)
Theorem terminal_target_is_reward `{Torch}
    (self_parameters target_parameters : gmap string (list spec_float))
    (gamma : f64) (batch : list Transition) :
  Exists (fun t => is_Some (next_state t)) batch ->
  Forall (fun t => (0 <= action t)%Z /\
            Z.to_nat (action t) < length (forward self_parameters (state t)))
         batch ->
  Forall (fun t => forall s, next_state t = Some s ->
            forward target_parameters s <> []) batch ->
  exists tg,
    compute_targets self_parameters target_parameters gamma batch = Ok tg /\
    forall i t, batch !! i = Some t -> next_state t = None ->
      nsv tg !! i = Some F32.zero /\
      exists e, expected tg !! i = Some e /\
        e = F32.add (F32.mul F32.zero (F32.of_f64 gamma)) (reward t) /\
        (is_finite (F32.of_f64 gamma) = true ->
           (is_nan (reward t) = false -> F32.eqb e (reward t) = true) /\
           (is_zero (reward t) = false -> e = reward t)).
Proof.
  intros Hnf Hact Hcol.
  destruct (compute_targets_returns self_parameters target_parameters gamma
              batch Hnf Hact Hcol) as [tg Htg].
  exists tg. split; [done|]. intros i t Hi Ht.
  destruct (terminal_rows _ _ _ _ _ _ _ Htg Hi Ht) as [Hz He].
  split; [done|]. eexists. split; [exact He|]. split; [done|].
  intros Hgamma.
  assert (Hm : is_zero (F32.mul F32.zero (F32.of_f64 gamma)) = true)
    by (by apply mul_zero_l).
  split; intros Hr.
  - by apply add_zero_l_eqb.
  - by apply add_zero_l_eq.
Qed.

Lemma terminal_target_is_reward_witness :
  let batch := [Fixture.terminal Fixture.two; Fixture.non_terminal F32.one] in
  exists tg,
    compute_targets (H := Fixture.constant_torch) ∅ ∅ F64.one batch = Ok tg /\
    nsv tg !! 0 = Some F32.zero /\
    expected tg !! 0 = Some Fixture.two.
Proof.
  intros batch.
  destruct (terminal_target_is_reward (H := Fixture.constant_torch) ∅ ∅
              F64.one batch) as (tg & Htg & Hrows).
  - apply Exists_cons_tl, Exists_cons_hd. by eexists.
  - repeat constructor; simpl; lia.
  - repeat constructor; simpl; done.
  - exists tg. split; [exact Htg|].
    destruct (Hrows 0 (Fixture.terminal Fixture.two) eq_refl eq_refl)
      as (Hz & e & He & _ & Hfin).
    split; [exact Hz|]. rewrite He. f_equal.
    destruct (Hfin eq_refl) as [_ Heq]. by apply Heq.
Defined.

(** C1 as stated fails: with [gamma] infinite the product [0 * gamma] is NaN,
    and so is the expected value of a terminal row, whatever its reward (here
    the reward is two). *)
Lemma terminal_target_not_reward_for_infinite_gamma :
  let t := Fixture.terminal Fixture.two in
  let batch := [t; Fixture.non_terminal F32.one] in
  exists tg,
    compute_targets (H := Fixture.constant_torch) ∅ ∅ F64.infinity batch = Ok tg /\
    batch !! 0 = Some t /\ next_state t = None /\
    nsv tg !! 0 = Some F32.zero /\
    expected tg !! 0 = Some S754_nan /\
    S754_nan <> reward t /\ F32.eqb S754_nan (reward t) = false.
Proof.
  intros t batch. eexists. split; [by vm_compute|].
  split_and!; done.
Qed.

(** ** Multiplication by one and the blend of the soft update *)

Section blend.
Implicit Types (x y z a b : spec_float).

Lemma digits_shift23 m :
  Zpos (digits2_pos (Pos.iter xO m 23)) = (Zpos (digits2_pos m) + 23)%Z.
Proof. cbn. lia. Qed.

Lemma shr_shift23 m e :
  shr {| shr_m := Zpos (Pos.iter xO m 23); shr_r := false; shr_s := false |}
      e 23
  = ({| shr_m := Zpos m; shr_r := false; shr_s := false |}, (e + 23)%Z).
Proof. reflexivity. Qed.

(** A canonical mantissa needs no shift. *)
Lemma shr_fexp_canonical m e :
  fexp 24 128 (Zpos (digits2_pos m) + e) = e ->
  shr_fexp 24 128 (Zpos m) e loc_Exact =
    ({| shr_m := Zpos m; shr_r := false; shr_s := false |}, e).
Proof.
  intros Hc. unfold shr_fexp, Zdigits2. rewrite Hc, Z.sub_diag. done.
Qed.

(** The product of a canonical mantissa with the mantissa of one is shifted
    back by 23 places, with nothing lost. *)
Lemma shr_fexp_shift23 m e :
  fexp 24 128 (Zpos (digits2_pos m) + e) = e ->
  shr_fexp 24 128 (Zpos (Pos.iter xO m 23)) (e + -23) loc_Exact =
    ({| shr_m := Zpos m; shr_r := false; shr_s := false |}, e).
Proof.
  intros Hc. unfold shr_fexp, Zdigits2. rewrite digits_shift23.
  replace (fexp 24 128 (Zpos (digits2_pos m) + 23 + (e + -23)) - (e + -23))%Z
    with 23%Z.
  2:{ replace (Zpos (digits2_pos m) + 23 + (e + -23))%Z
        with (Zpos (digits2_pos m) + e)%Z by lia. rewrite Hc. lia. }
  unfold shr_record_of_loc. rewrite shr_shift23. f_equal. lia.
Qed.

Lemma mul_one_r x : F32.valid x = true -> F32.mul x F32.one = x.
Proof.
  destruct x as [[]|[]| |s m e]; try done.
  unfold F32.valid, F32.mul, F32.one, F32.prec, F32.emax. simpl valid_binary.
  intros Hb. apply andb_prop in Hb as [Hc He].
  unfold canonical_mantissa in Hc. apply Z.eqb_eq in Hc. apply Z.leb_le in He.
  unfold SFmul.
  replace (m * 8388608)%positive with (Pos.iter xO m 23) by (cbn; lia).
  unfold binary_round_aux.
  rewrite shr_fexp_shift23 by done.
  cbn [shr_m loc_of_shr_record round_nearest_even].
  rewrite shr_fexp_canonical by done. cbn [shr_m].
  rewrite xorb_false_r.
  destruct (Z.leb_spec e (128 - 24)); [done|lia].
Qed.

Lemma mul_comm x y : F32.mul x y = F32.mul y x.
Proof.
  unfold F32.mul.
  destruct x as [sx|sx| |sx mx ex], y as [sy|sy| |sy my ey]; simpl;
    rewrite ?(xorb_comm sx sy); try done.
  by rewrite (Pos.mul_comm mx my), (Z.add_comm ex ey).
Qed.

Lemma of_f64_one : F32.of_f64 F64.one = F32.one.
Proof. reflexivity. Qed.

Lemma of_f64_zero : F32.of_f64 F64.zero = F32.zero.
Proof. reflexivity. Qed.

Lemma one_minus_one : F64.sub F64.one F64.one = F64.zero.
Proof. reflexivity. Qed.

Lemma one_minus_zero : F64.sub F64.one F64.zero = F64.one.
Proof. reflexivity. Qed.

(** [tau = 1]: the blend is the acting value; only an acting [-0.0] can
    come out as [+0.0]. *)
Lemma blend_tau_one a b :
  F32.valid a = true -> is_finite b = true ->
  (a <> S754_zero true -> blend_elem F64.one a b = a) /\
  (is_nan a = false -> F32.eqb (blend_elem F64.one a b) a = true).
Proof.
  intros Ha Hb. unfold blend_elem.
  rewrite one_minus_one, of_f64_one, of_f64_zero, mul_one_r by done.
  assert (Hz : is_zero (F32.mul b F32.zero) = true) by (by apply mul_zero_r).
  split; intros ?; [by apply add_zero_r_id | by apply add_zero_r_eqb].
Qed.

(** [tau = 0]: the blend is the target value; only a target [-0.0] can come
    out as [+0.0]. *)
Lemma blend_tau_zero a b :
  is_finite a = true -> F32.valid b = true ->
  (b <> S754_zero true -> blend_elem F64.zero a b = b) /\
  (is_nan b = false -> F32.eqb (blend_elem F64.zero a b) b = true).
Proof.
  intros Ha Hb. unfold blend_elem.
  rewrite one_minus_zero, of_f64_one, of_f64_zero, mul_one_r by done.
  assert (Hz : is_zero (F32.mul a F32.zero) = true) by (by apply mul_zero_r).
  split; intros ?; [by apply add_zero_l_id | by apply add_zero_l_eqb].
Qed.
End blend.

(** ** The soft update of the target network *)

Section soft_update.
Context `{Torch} `{Env}.
Implicit Types (sd pol tgt : gmap string (list spec_float)) (w : World).

(** The loop over the keys: every key of the policy's dict is blended into
    the target's dict, the other keys stay. *)
Lemma soft_update_loop_spec tau (items : list (string * list f32)) tgt :
  NoDup items.*1 ->
  (forall k a, (k, a) ∈ items ->
     exists b, tgt !! k = Some b /\ length a = length b) ->
  exists sd, soft_update_loop tau items tgt = Ok sd /\
    forall k, sd !! k =
      match (list_to_map items : gmap string (list f32)) !! k with
      | Some a => zip_with (blend_elem tau) a <$> tgt !! k
      | None => tgt !! k
      end.
Proof.
  revert tgt. induction items as [|[key a] items IH]; intros tgt Hnd Hin.
  - exists tgt. split; [done|]. intros k. simpl. by rewrite lookup_empty.
  - rewrite fmap_cons in Hnd. apply list.NoDup_cons in Hnd as [Hkey Hnd].
    destruct (Hin key a) as (b & Hb & Hlen); [left|].
    simpl. rewrite Hb. unfold blend. rewrite decide_True by done. simpl.
    destruct (IH (<[key := zip_with (blend_elem tau) a b]> tgt) Hnd)
      as (sd & -> & Hsd).
    { intros k a' Hk. destruct (decide (k = key)) as [->|Hne].
      - exfalso. apply Hkey. apply list_elem_of_fmap. by exists (key, a').
      - rewrite lookup_insert_ne by done. apply Hin. by right. }
    exists sd. split; [done|]. intros k. rewrite Hsd.
    destruct (decide (k = key)) as [->|Hne].
    + rewrite lookup_insert_eq.
      rewrite (not_elem_of_list_to_map_1 _ key) by done.
      by rewrite lookup_insert_eq, Hb.
    + by rewrite !lookup_insert_ne.
Qed.

(** Lines 190 to 196 on two modules whose parameters have the same names
    and sizes: the target's new state dict is the key-wise, element-wise
    blend; nothing else in the world moves. *)
Lemma soft_update_spec tau w :
  length <$> parameters (nets w policy_net) =
    length <$> parameters (nets w target_net) ->
  exists m,
    soft_update tau w = (Ok (), set_net w target_net m) /\
    n_observations m = n_observations (nets w target_net) /\
    n_actions m = n_actions (nets w target_net) /\
    parameters m =
      map_zip_with (zip_with (blend_elem tau))
        (parameters (nets w policy_net)) (parameters (nets w target_net)).
Proof.
  intros Hshape. unfold soft_update.
  set (pol := parameters (nets w policy_net)) in *.
  set (tgt := parameters (nets w target_net)) in *.
  assert (Hsame : forall k a, pol !! k = Some a ->
            exists b, tgt !! k = Some b /\ length a = length b).
  { intros k a Ha.
    assert (Hk : (length <$> tgt) !! k = Some (length a)).
    { by rewrite <- Hshape, lookup_fmap, Ha. }
    rewrite lookup_fmap in Hk.
    destruct (tgt !! k) as [b|]; [|done]. exists b. split; [done|].
    simpl in Hk. congruence. }
  destruct (soft_update_loop_spec tau (map_to_list pol) tgt) as (sd & -> & Hsd).
  { apply NoDup_fst_map_to_list. }
  { intros k a Hk. apply Hsame. by apply elem_of_map_to_list. }
  assert (Heq : sd = map_zip_with (zip_with (blend_elem tau)) pol tgt).
  { apply map_eq. intros k. rewrite Hsd, list_to_map_to_list.
    rewrite map_lookup_zip_with.
    destruct (pol !! k) as [a|] eqn:Ha; simpl.
    - by destruct (tgt !! k).
    - destruct (tgt !! k) as [b|] eqn:Hb; [|done].
      assert (Hk : (length <$> pol) !! k = Some (length b)).
      { by rewrite Hshape, lookup_fmap, Hb. }
      by rewrite lookup_fmap, Ha in Hk. }
  unfold load_state_dict. rewrite decide_True.
  - eexists. split; [done|]. by rewrite Heq.
  - fold tgt. rewrite Heq. apply map_eq. intros k.
    rewrite !lookup_fmap, map_lookup_zip_with.
    destruct (pol !! k) as [a|] eqn:Ha; simpl.
    + destruct (Hsame k a Ha) as (b & -> & Hlen). simpl.
      rewrite length_zip_with. f_equal. lia.
    + destruct (tgt !! k) as [b|] eqn:Hb; [|done].
      assert (Hk : (length <$> pol) !! k = Some (length b)).
      { by rewrite Hshape, lookup_fmap, Hb. }
      by rewrite lookup_fmap, Ha in Hk.
Qed.
Lemma zip_with_Forall2_l {A B C} (f : A -> B -> C) (P : A -> Prop)
    (Q : B -> Prop) (R : C -> A -> Prop) (a : list A) (b : list B) :
  length a = length b -> Forall P a -> Forall Q b ->
  (forall x y, P x -> Q y -> R (f x y) x) ->
  Forall2 R (zip_with f a b) a.
Proof.
  intros Hlen Ha Hb Hf. revert b Hlen Hb.
  induction Ha as [|x a Hx Ha IH]; intros [|y b] Hlen Hb; try done.
  apply list.Forall_cons in Hb as [Hy Hb]. simpl in Hlen.
  constructor; [by apply Hf|]. apply IH; [lia|done].
Qed.

Lemma zip_with_Forall2_r {A B C} (f : A -> B -> C) (P : A -> Prop)
    (Q : B -> Prop) (R : C -> B -> Prop) (a : list A) (b : list B) :
  length a = length b -> Forall P a -> Forall Q b ->
  (forall x y, P x -> Q y -> R (f x y) y) ->
  Forall2 R (zip_with f a b) b.
Proof.
  intros Hlen Ha Hb Hf. revert b Hlen Hb.
  induction Ha as [|x a Hx Ha IH]; intros [|y b] Hlen Hb; try done.
  apply list.Forall_cons in Hb as [Hy Hb]. simpl in Hlen.
  constructor; [by apply Hf|]. apply IH; [lia|done].
Qed.

Lemma same_shape_lookup pol tgt k a :
  length <$> pol = length <$> tgt -> pol !! k = Some a ->
  exists b, tgt !! k = Some b /\ length a = length b.
Proof.
  intros Hshape Ha.
  assert (Hk : (length <$> tgt) !! k = Some (length a)).
  { by rewrite <- Hshape, lookup_fmap, Ha. }
  rewrite lookup_fmap in Hk.
  destruct (tgt !! k) as [b|]; [|done]. exists b. split; [done|].
  simpl in Hk. congruence.
Qed.

(** With [tau = 0], finite acting values and no [-0.0] among the target
    values, the blended dict is the target's dict itself. *)
Lemma blend_tau_zero_dict pol tgt :
  length <$> pol = length <$> tgt ->
  all_elems (fun x => is_finite x = true) pol ->
  all_elems (fun y => F32.valid y = true /\ y <> S754_zero true) tgt ->
  map_zip_with (zip_with (blend_elem F64.zero)) pol tgt = tgt.
Proof.
  intros Hshape Hpol Htgt. apply map_eq. intros k.
  rewrite map_lookup_zip_with.
  destruct (tgt !! k) as [b|] eqn:Hb.
  - destruct (same_shape_lookup tgt pol k b) as (a & Ha & Hlen); [done..|].
    rewrite Ha. simpl. f_equal.
    apply list_eq_Forall2.
    eapply (zip_with_Forall2_r _ _ _ _ a b); [done| | |].
    + exact (Hpol k a Ha).
    + exact (Htgt k b Hb).
    + intros x y Hx [Hy Hy0]. simpl in *.
      by apply (blend_tau_zero x y Hx Hy).
  - by destruct (pol !! k).
Qed.
End soft_update.

(** C4 (amended).  On two modules with the same parameter names and sizes
    the update goes through and sets every element of every named target
    parameter to [tau * acting + (1 - tau) * target], computed in float32.
    With [tau = 1] and finite old target values, every new target element is
    the acting element itself unless that element is [-0.0], and compares
    equal to it unless it is NaN.  With [tau = 0] and finite acting values,
    every new target element is the old one itself unless the old one is
    [-0.0], and compares equal to it unless it is NaN; when no target element
    is [-0.0], any number of updates in a row leaves the target's state dict
    as it was, bit for bit.  ([spec_float] has one NaN: for a NaN element
    "itself" says that it stays NaN.) *)
Theorem soft_update_blend `{Torch} `{Env} (tau : f64) (w : World) :
  let pol := parameters (nets w policy_net) in
  let tgt := parameters (nets w target_net) in
  length <$> pol = length <$> tgt ->
  exists w',
    soft_update tau w = (Ok (), w') /\
    nets w' policy_net = nets w policy_net /\
    (forall key a b, pol !! key = Some a -> tgt !! key = Some b ->
       exists c, parameters (nets w' target_net) !! key = Some c /\
         length c = length b /\
         forall i x y, a !! i = Some x -> b !! i = Some y ->
           c !! i =
             Some (F32.add (F32.mul (F32.of_f64 tau) x)
                     (F32.mul (F32.of_f64 (F64.sub F64.one tau)) y))) /\
    (tau = F64.one ->
     all_elems (fun x => F32.valid x = true) pol ->
     all_elems (fun y => is_finite y = true) tgt ->
     forall key a, pol !! key = Some a ->
       exists c, parameters (nets w' target_net) !! key = Some c /\
         Forall2 (fun z x => (x <> S754_zero true -> z = x) /\
                             (is_nan x = false -> F32.eqb z x = true)) c a) /\
    (tau = F64.zero ->
     all_elems (fun x => is_finite x = true) pol ->
     all_elems (fun y => F32.valid y = true) tgt ->
     forall key b, tgt !! key = Some b ->
       exists c, parameters (nets w' target_net) !! key = Some c /\
         Forall2 (fun z y => (y <> S754_zero true -> z = y) /\
                             (is_nan y = false -> F32.eqb z y = true)) c b) /\
    (tau = F64.zero ->
     all_elems (fun x => is_finite x = true) pol ->
     all_elems (fun y => F32.valid y = true /\ y <> S754_zero true) tgt ->
     forall n, exists w'',
       soft_updates tau n w = (Ok (), w'') /\
       parameters (nets w'' target_net) = tgt).
Proof.
  intros pol tgt Hshape.
  destruct (soft_update_spec tau w Hshape) as (m & Hupd & _ & _ & Hm).
  fold pol tgt in Hm.
  exists (set_net w target_net m). split; [done|].
  assert (Hnew : parameters (nets (set_net w target_net m) target_net)
                 = map_zip_with (zip_with (blend_elem tau)) pol tgt).
  { simpl. by rewrite fn_lookup_insert. }
  rewrite Hnew. split_and!.
  - simpl. by rewrite fn_lookup_insert_ne.
  - intros key a b Ha Hb. eexists. split.
    { rewrite map_lookup_zip_with, Ha, Hb. done. }
    destruct (same_shape_lookup pol tgt key a Hshape Ha) as (b' & Hb' & Hlen).
    assert (b' = b) as -> by congruence.
    split; [rewrite length_zip_with; lia|].
    intros i x y Hx Hy. rewrite lookup_zip_with, Hx, Hy. simpl.
    unfold blend_elem. by rewrite !(mul_comm (F32.of_f64 _)).
  - intros -> Hpol Htgt key a Ha.
    destruct (same_shape_lookup pol tgt key a Hshape Ha) as (b & Hb & Hlen).
    eexists. split.
    { rewrite map_lookup_zip_with, Ha, Hb. done. }
    eapply (zip_with_Forall2_l _ _ _ _ a b);
      [done | exact (Hpol key a Ha) | exact (Htgt key b Hb) |].
    intros x y Hx Hy. by apply blend_tau_one.
  - intros -> Hpol Htgt key b Hb.
    destruct (same_shape_lookup tgt pol key b (eq_sym Hshape) Hb)
      as (a & Ha & Hlen).
    eexists. split.
    { rewrite map_lookup_zip_with, Ha, Hb. done. }
    eapply (zip_with_Forall2_r _ _ _ _ a b);
      [done | exact (Hpol key a Ha) | exact (Htgt key b Hb) |].
    intros x y Hx Hy. by apply blend_tau_zero.
  - intros -> Hpol Htgt n. clear m Hupd Hm Hnew.
    revert w pol tgt Hshape Hpol Htgt.
    induction n as [|n IH]; intros w pol tgt Hshape Hpol Htgt.
    + by exists w.
    + simpl.
      destruct (soft_update_spec F64.zero w Hshape) as (m & -> & _ & _ & Hm).
      fold pol tgt in Hm. rewrite blend_tau_zero_dict in Hm by done.
      destruct (IH (set_net w target_net m)) as (w'' & Hw'' & Hp).
      * simpl. rewrite fn_lookup_insert, fn_lookup_insert_ne by done.
        by rewrite Hm.
      * simpl. by rewrite fn_lookup_insert_ne.
      * simpl. by rewrite fn_lookup_insert, Hm.
      * exists w''. split; [done|]. rewrite Hp. simpl.
        by rewrite fn_lookup_insert.
Qed.

(** Two updates with [tau = 0] on a target that holds [2.0] and [+0.0],
    under the acting values [1.0] and [-2.0]: the target's state dict is as
    it was, the [+0.0] included. *)
Lemma soft_update_blend_witness :
  let minus_two : f32 := S754_finite true 8388608 (-22) in
  let w := Fixture.world {["w"%string := [F32.one; minus_two]]}
             {["w"%string := [Fixture.two; S754_zero false]]}
             (ReplayMemory_init 1) 1000 in
  length <$> parameters (nets w policy_net) =
    length <$> parameters (nets w target_net) /\
  exists w'',
    soft_updates F64.zero 2 w = (Ok (), w'') /\
    parameters (nets w'' target_net)
      = {["w"%string := [Fixture.two; S754_zero false]]}.
Proof.
  intros minus_two w.
  assert (Hshape : length <$> parameters (nets w policy_net) =
                   length <$> parameters (nets w target_net)).
  { simpl. by rewrite !map_fmap_singleton. }
  split; [exact Hshape|].
  destruct (soft_update_blend F64.zero w Hshape)
    as (w' & _ & _ & _ & _ & _ & Hsame).
  apply (Hsame eq_refl).
  - simpl. apply map_Forall_singleton. by repeat constructor.
  - simpl. apply map_Forall_singleton. by repeat constructor.
Defined.

(** C4 as stated fails.  With [tau = 0] a target element [-0.0] under the
    acting element [1.0] becomes [+0.0]: the sign bit has changed.  With
    [tau = 1] an infinite target element gives [inf * 0 = NaN], so the new
    target element is NaN, not the acting element [1.0].  With [tau = 0] an
    infinite acting element turns the target element [1.0] into NaN.  With
    [tau = 1] a NaN acting element gives a NaN, which does not compare equal
    to the acting element. *)
Lemma soft_update_not_exact :
  let w0 := Fixture.world {["w"%string := [F32.one]]}
              {["w"%string := [S754_zero true]]} (ReplayMemory_init 1) 1000 in
  let w1 := Fixture.world {["w"%string := [F32.one]]}
              {["w"%string := [S754_infinity false]]} (ReplayMemory_init 1)
              1000 in
  let w2 := Fixture.world {["w"%string := [S754_infinity false]]}
              {["w"%string := [F32.one]]} (ReplayMemory_init 1) 1000 in
  let w3 := Fixture.world {["w"%string := [S754_nan]]}
              {["w"%string := [F32.one]]} (ReplayMemory_init 1) 1000 in
  (exists w', soft_update F64.zero w0 = (Ok (), w') /\
     parameters (nets w0 target_net) !! "w"%string = Some [S754_zero true] /\
     parameters (nets w' target_net) !! "w"%string = Some [S754_zero false]) /\
  (exists w', soft_update F64.one w1 = (Ok (), w') /\
     parameters (nets w1 policy_net) !! "w"%string = Some [F32.one] /\
     parameters (nets w' target_net) !! "w"%string = Some [S754_nan]) /\
  (exists w', soft_update F64.zero w2 = (Ok (), w') /\
     parameters (nets w2 target_net) !! "w"%string = Some [F32.one] /\
     parameters (nets w' target_net) !! "w"%string = Some [S754_nan]) /\
  (exists w' z, soft_update F64.one w3 = (Ok (), w') /\
     parameters (nets w3 policy_net) !! "w"%string = Some [S754_nan] /\
     parameters (nets w' target_net) !! "w"%string = Some [z] /\
     F32.eqb z S754_nan = false).
Proof.
  intros w0 w1 w2 w3. split_and!.
  - destruct (soft_update_spec F64.zero w0) as (m & Hupd & _ & _ & Hm).
    { simpl. by rewrite !map_fmap_singleton. }
    eexists. split; [exact Hupd|]. simpl.
    rewrite fn_lookup_insert, Hm. simpl.
    by rewrite map_lookup_zip_with, !lookup_singleton_eq.
  - destruct (soft_update_spec F64.one w1) as (m & Hupd & _ & _ & Hm).
    { simpl. by rewrite !map_fmap_singleton. }
    eexists. split; [exact Hupd|]. simpl.
    rewrite fn_lookup_insert, Hm. simpl.
    by rewrite map_lookup_zip_with, !lookup_singleton_eq.
  - destruct (soft_update_spec F64.zero w2) as (m & Hupd & _ & _ & Hm).
    { simpl. by rewrite !map_fmap_singleton. }
    eexists. split; [exact Hupd|]. simpl.
    rewrite fn_lookup_insert, Hm. simpl.
    by rewrite map_lookup_zip_with, !lookup_singleton_eq.
  - destruct (soft_update_spec F64.one w3) as (m & Hupd & _ & _ & Hm).
    { simpl. by rewrite !map_fmap_singleton. }
    exists (set_net w3 target_net m), S754_nan. split; [exact Hupd|]. simpl.
    rewrite fn_lookup_insert, Hm. simpl.
    by rewrite map_lookup_zip_with, !lookup_singleton_eq.
Qed.

(** ** The optimizer step *)

Section optimize_model.
Context `{Torch} `{Env}.
Implicit Types (w : World) (self target : net_ref).

Lemma sample_keeps_memory (m : ReplayMemory) k g :
  (sample m k g).2.1 = m.
Proof. unfold sample. by destruct (random_sample _ _ _). Qed.

(** Whatever the call does, it touches no module but [self], and neither
    the buffer, the policy nor the environment. *)
Lemma optimize_model_frame_of self batch_size gamma target w :
  let w' := (optimize_model self batch_size gamma target w).2 in
  (forall r, r <> self -> nets w' r = nets w r) /\
  replay w' = replay w /\ policy w' = policy w /\ env w' = env w.
Proof.
  unfold optimize_model.
  destruct (len (replay w) <? batch_size); [done|].
  pose proof (sample_keeps_memory (replay w) batch_size (gen w)) as Hmem.
  destruct (sample _ _ _) as [[ts|e] [mem g]]; simpl in Hmem; subst mem;
    [|done].
  destruct (compute_targets _ _ _ _) as [tg|e]; [|done].
  destruct (gradient_step _ _ _ _ _) as [p' o']. simpl.
  split; [|done]. intros r Hr. by rewrite fn_lookup_insert_ne.
Qed.
End optimize_model.

(** C2.  With fewer transitions in the buffer than [batch_size], the call
    returns without raising and leaves the whole world (both modules, the
    buffer, the generator) as it was. *)
Theorem optimize_model_skips_small_buffer `{Torch} `{Env} (self target : net_ref)
    (batch_size : nat) (gamma : f64) (w : World) :
  len (replay w) < batch_size ->
  optimize_model self batch_size gamma target w = (Ok (), w).
Proof.
  intros Hlt. unfold optimize_model.
  by destruct (Nat.ltb_spec (len (replay w)) batch_size); [|lia].
Qed.

Lemma optimize_model_skips_small_buffer_witness :
  let w := Fixture.world ∅ ∅ (ReplayMemory_init 4) 1000 in
  len (replay w) < 2 /\
  optimize_model policy_net 2 F64.one target_net w = (Ok (), w).
Proof.
  intros w. split; [cbn; lia|].
  apply (optimize_model_skips_small_buffer policy_net target_net 2 F64.one w).
  cbn. lia.
Defined.

(** C7.  When the step of the training loop runs (the buffer holds at least
    [batch_size] transitions), whether it completes or raises, the target
    module is as before (parameters and optimizer), and so are the buffer,
    the policy and the environment; what can change is the acting module
    and the position of the random generator. *)
Theorem optimize_model_changes_only_policy_net `{Torch} `{Env}
    (batch_size : nat) (gamma : f64) (w : World) :
  batch_size <= len (replay w) ->
  let w' := (optimize_model policy_net batch_size gamma target_net w).2 in
  nets w' target_net = nets w target_net /\
  replay w' = replay w /\ policy w' = policy w /\ env w' = env w.
Proof.
  intros _ w'.
  destruct (optimize_model_frame_of policy_net batch_size gamma target_net w)
    as (Hnets & Hrest).
  split; [|exact Hrest]. by apply Hnets.
Qed.

Lemma optimize_model_changes_only_policy_net_witness :
  let mem := push_all (ReplayMemory_init 4)
               [Fixture.non_terminal F32.one; Fixture.terminal Fixture.two] in
  let w := Fixture.world ∅ ∅ mem 1000 in
  2 <= len (replay w) /\
  let w' := (optimize_model policy_net 2 F64.one target_net w).2 in
  nets w' target_net = nets w target_net /\
  replay w' = replay w /\ policy w' = policy w /\ env w' = env w.
Proof.
  intros mem w. split; [cbn; lia|].
  apply (optimize_model_changes_only_policy_net 2 F64.one w). cbn. lia.
Defined.

(** ** Set-up *)


(** ** The exploration schedule *)

Section schedule.
Import EpsilonGreedyPolicy.
Local Open Scope R_scope.
Implicit Types (p : EpsilonGreedyPolicy.t) (s : Z).

Lemma exp_max_pos : 0 < exp_max.
Proof. unfold exp_max. lra. Qed.

Lemma float_max_int_pos : (0 < float_max_int)%Z.
Proof. unfold float_max_int. lia. Qed.

Lemma exp_le (x y : R) : x <= y -> exp x <= exp y.
Proof.
  intros [Hlt| ->]; [left; by apply exp_increasing | right; reflexivity].
Qed.

Lemma exponent_nonpos (d : R) s : 0 < d -> (0 <= s)%Z -> -1 * IZR s / d <= 0.
Proof.
  intros Hd Hs. apply IZR_le in Hs.
  assert (0 <= IZR s / d) by (apply Rle_mult_inv_pos; lra).
  unfold Rdiv in *. lra.
Qed.

(** With a positive decay and a counter in range nothing raises, and the
    threshold is the schedule at the counter. *)
Lemma eps_threshold_schedule p :
  0 < eps_decay p -> (0 <= steps_done p < float_max_int)%Z ->
  eps_threshold p =
    Ok (schedule (eps_end p) (eps_start p) (eps_decay p) (steps_done p)).
Proof.
  intros Hd [Hs0 Hs1]. unfold eps_threshold, float_of_int, float_div, math_exp.
  destruct (Z.leb_spec float_max_int (Z.abs (steps_done p))); [lia|]. simpl.
  destruct (Req_dec_T (eps_decay p) 0); [lra|]. simpl.
  pose proof (exponent_nonpos (eps_decay p) (steps_done p) Hd Hs0).
  pose proof exp_max_pos.
  destruct (Rlt_dec exp_max _); [lra|]. done.
Qed.

Lemma schedule_start (e_end e_start e_decay : R) :
  schedule e_end e_start e_decay 0 = e_start.
Proof.
  unfold schedule. replace (-1 * 0 / e_decay) with 0 by (unfold Rdiv; ring).
  rewrite exp_0. ring.
Qed.

Lemma schedule_non_increasing (e_end e_start e_decay : R) s s' :
  0 < e_decay -> e_end < e_start -> (s <= s')%Z ->
  schedule e_end e_start e_decay s' <= schedule e_end e_start e_decay s.
Proof.
  intros Hd Hse Hs. unfold schedule. apply IZR_le in Hs.
  assert (Hexp : exp (-1 * IZR s' / e_decay) <= exp (-1 * IZR s / e_decay)).
  { apply exp_le. unfold Rdiv.
    assert (0 < / e_decay) by (by apply Rinv_0_lt_compat). nra. }
  nra.
Qed.

Lemma schedule_converges (e_end e_start e_decay : R) :
  0 < e_decay ->
  Un_cv (fun n => schedule e_end e_start e_decay (Z.of_nat n)) e_end.
Proof.
  intros Hd eps Heps. unfold R_dist, schedule.
  set (c := Rabs (e_start - e_end)).
  assert (Hc : 0 <= c) by apply Rabs_pos.
  set (delta := eps / (c + 1)).
  assert (Hdelta : 0 < delta).
  { unfold delta. apply Rdiv_lt_0_compat; lra. }
  destruct (archimed (e_decay / delta)) as [Hup _].
  exists (Z.to_nat (up (e_decay / delta))). intros n Hn.
  assert (Hbig : e_decay / delta < INR n).
  { eapply Rlt_le_trans; [exact Hup|].
    rewrite INR_IZR_INZ. apply IZR_le. lia. }
  rewrite <- INR_IZR_INZ.
  set (y := INR n / e_decay).
  assert (Hy : / delta < y).
  { unfold y.
    apply (Rmult_lt_reg_r e_decay); [done|].
    unfold Rdiv in *. rewrite Rmult_assoc, Rinv_l by lra. lra. }
  assert (Hinv : 0 < / delta) by (by apply Rinv_0_lt_compat).
  assert (Hexpy : / delta < exp y).
  { pose proof (exp_ineq1 y ltac:(lra)). lra. }
  assert (Hsmall : exp (- y) < delta).
  { rewrite exp_Ropp.
    rewrite <- (Rinv_inv delta).
    apply Rinv_lt_contravar; [|done].
    apply Rmult_lt_0_compat; [done|apply exp_pos]. }
  replace (-1 * INR n / e_decay) with (- y) by (unfold y, Rdiv; ring).
  replace (e_end + (e_start - e_end) * exp (- y) - e_end)
    with ((e_start - e_end) * exp (- y)) by ring.
  rewrite Rabs_mult. fold c.
  rewrite (Rabs_right (exp (- y))) by (left; apply exp_pos).
  assert (c * exp (- y) <= c * delta).
  { apply Rmult_le_compat_l; lra. }
  assert (c * delta < eps).
  { unfold delta. unfold Rdiv. rewrite <- Rmult_assoc.
    apply (Rmult_lt_reg_r (c + 1)); [lra|].
    rewrite Rmult_assoc, Rinv_l by lra. nra. }
  lra.
Qed.
End schedule.

(** ** The schedule in binary64 *)

Section schedule_binary64.
Import EpsilonGreedyPolicy.
Context `{Libm}.
Implicit Types (x e_end e_start e_decay q : spec_float) (steps : Z).

Lemma digits_shift52 m :
  Zpos (digits2_pos (Pos.iter xO m 52)) = (Zpos (digits2_pos m) + 52)%Z.
Proof. cbn. lia. Qed.

Lemma shr_shift52 m e :
  shr {| shr_m := Zpos (Pos.iter xO m 52); shr_r := false; shr_s := false |}
      e 52
  = ({| shr_m := Zpos m; shr_r := false; shr_s := false |}, (e + 52)%Z).
Proof. reflexivity. Qed.

Lemma shr_fexp_canonical64 m e :
  fexp 53 1024 (Zpos (digits2_pos m) + e) = e ->
  shr_fexp 53 1024 (Zpos m) e loc_Exact =
    ({| shr_m := Zpos m; shr_r := false; shr_s := false |}, e).
Proof.
  intros Hc. unfold shr_fexp, Zdigits2. rewrite Hc, Z.sub_diag. done.
Qed.

Lemma shr_fexp_shift52 m e :
  fexp 53 1024 (Zpos (digits2_pos m) + e) = e ->
  shr_fexp 53 1024 (Zpos (Pos.iter xO m 52)) (e + -52) loc_Exact =
    ({| shr_m := Zpos m; shr_r := false; shr_s := false |}, e).
Proof.
  intros Hc. unfold shr_fexp, Zdigits2. rewrite digits_shift52.
  replace (fexp 53 1024 (Zpos (digits2_pos m) + 52 + (e + -52)) - (e + -52))%Z
    with 52%Z.
  2:{ replace (Zpos (digits2_pos m) + 52 + (e + -52))%Z
        with (Zpos (digits2_pos m) + e)%Z by lia. rewrite Hc. lia. }
  unfold shr_record_of_loc. rewrite shr_shift52. f_equal. lia.
Qed.

(** The product with [1.0] is exact. *)
Lemma mul_one_r64 x : F64.valid x = true -> F64.mul x F64.one = x.
Proof.
  destruct x as [[]|[]| |s m e]; try done.
  unfold F64.valid, F64.mul, F64.one, F64.prec, F64.emax. simpl valid_binary.
  intros Hb. apply andb_prop in Hb as [Hc He].
  unfold canonical_mantissa in Hc. apply Z.eqb_eq in Hc. apply Z.leb_le in He.
  unfold SFmul.
  replace (m * 4503599627370496)%positive with (Pos.iter xO m 52)
    by (cbn; lia).
  unfold binary_round_aux.
  rewrite shr_fexp_shift52 by done.
  cbn [shr_m loc_of_shr_record round_nearest_even].
  rewrite shr_fexp_canonical64 by done. cbn [shr_m].
  rewrite xorb_false_r.
  destruct (Z.leb_spec e (1024 - 53)); [done|lia].
Qed.

(** At counter zero the argument of [math.exp] is a zero. *)
Lemma exponent_binary64_at_zero e_decay :
  is_zero e_decay = false -> is_nan e_decay = false ->
  exists s, exponent_binary64 e_decay 0 = Ok (S754_zero s).
Proof.
  destruct e_decay as [s|s| |s m e]; try done; intros _ _;
    by exists (xorb true s).
Qed.

Lemma eps_threshold_binary64_value e_end e_start e_decay steps e :
  (Z.abs steps < float_max_int)%Z -> is_zero e_decay = false ->
  math_exp_binary64
    (F64.div (F64.mul F64.minus_one (F64.of_Z steps)) e_decay) = Ok e ->
  eps_threshold_binary64 e_end e_start e_decay steps
    = Ok (F64.add e_end (F64.mul (F64.sub e_start e_end) e)).
Proof.
  intros Hs Hd He.
  unfold eps_threshold_binary64, exponent_binary64, float_of_int_binary64,
    float_div_binary64.
  destruct (Z.leb_spec float_max_int (Z.abs steps)); [lia|].
  cbn [mbind result_bind]. rewrite Hd. cbn [mbind result_bind].
  by rewrite He.
Qed.

Lemma eps_threshold_binary64_at_zero e_end e_start e_decay :
  F64.valid (F64.sub e_start e_end) = true ->
  is_zero e_decay = false -> is_nan e_decay = false ->
  eps_threshold_binary64 e_end e_start e_decay 0
    = Ok (F64.add e_end (F64.sub e_start e_end)).
Proof.
  intros Hv Hd Hn.
  destruct (exponent_binary64_at_zero e_decay Hd Hn) as [s Hq].
  unfold eps_threshold_binary64. rewrite Hq. cbn [mbind result_bind].
  unfold math_exp_binary64. rewrite libm_exp_zero. cbn.
  by rewrite mul_one_r64.
Qed.

(** Once [exp] has underflowed to a zero, the sum is [eps_end]; only an
    [eps_end] of [-0.0] can come out as [+0.0]. *)
Lemma eps_threshold_binary64_underflow e_end e_start e_decay steps q :
  exponent_binary64 e_decay steps = Ok q ->
  is_zero (libm_exp q) = true ->
  is_finite (F64.sub e_start e_end) = true -> is_nan e_end = false ->
  exists v,
    eps_threshold_binary64 e_end e_start e_decay steps = Ok v /\
    SFeqb v e_end = true /\
    (e_end <> S754_zero true -> v = e_end).
Proof.
  intros Hq Hz Hd He. unfold eps_threshold_binary64. rewrite Hq.
  cbn [mbind result_bind]. unfold math_exp_binary64.
  destruct (libm_exp q) as [sz| | |] eqn:Hexp; try done.
  cbn [is_nan is_infinity andb mbind result_bind].
  eexists. split; [done|].
  assert (Hprod : is_zero (F64.mul (F64.sub e_start e_end) (S754_zero sz))
                  = true) by (by apply SFmul_zero_r).
  destruct (SFadd_zero_r F64.prec F64.emax e_end _ Hprod) as [Hid Heq].
  split; [by apply Heq | exact Hid].
Qed.
End schedule_binary64.


(** C5 (amended).  For Python-float parameters the threshold that
    [select_action] computes is
    [eps_end + (eps_start - eps_end) * exp (-1.0 * steps_done / eps_decay)]
    evaluated in binary64, every operation rounded: for a counter that
    converts to a float and an [eps_decay] that is not zero, it is that
    value whenever [math.exp] returns.  At counter zero (with [eps_decay]
    neither zero nor NaN) it is the rounded sum
    [eps_end + (eps_start - eps_end)].  Whenever [exp] has underflowed to
    zero (with [eps_start - eps_end] finite and [eps_end] not NaN) it
    compares equal to [eps_end], and is [eps_end] itself unless that is
    [-0.0].  In exact arithmetic, for finite parameters and a positive
    [eps_decay]: the threshold of a counter in range is the formula on the
    parameters' real values; the formula converges to [eps_end], and is
    non-increasing in the counter when [eps_start > eps_end]. *)
Theorem exploration_threshold_properties `{Libm} (e_end e_start e_decay : f64) :
  let threshold :=
    EpsilonGreedyPolicy.eps_threshold_binary64 e_end e_start e_decay in
  let r_end := F64.to_R e_end in
  let r_start := F64.to_R e_start in
  let r_decay := F64.to_R e_decay in
  let formula := EpsilonGreedyPolicy.schedule r_end r_start r_decay in
  (forall (steps : Z) (e : f64),
     (Z.abs steps < EpsilonGreedyPolicy.float_max_int)%Z ->
     is_zero e_decay = false ->
     EpsilonGreedyPolicy.math_exp_binary64
       (F64.div (F64.mul F64.minus_one (F64.of_Z steps)) e_decay) = Ok e ->
     threshold steps
       = Ok (F64.add e_end (F64.mul (F64.sub e_start e_end) e))) /\
  (F64.valid (F64.sub e_start e_end) = true ->
   is_zero e_decay = false -> is_nan e_decay = false ->
   threshold 0%Z = Ok (F64.add e_end (F64.sub e_start e_end))) /\
  (forall (steps : Z) (q : f64),
     EpsilonGreedyPolicy.exponent_binary64 e_decay steps = Ok q ->
     is_zero (libm_exp q) = true ->
     is_finite (F64.sub e_start e_end) = true -> is_nan e_end = false ->
     exists v, threshold steps = Ok v /\
       SFeqb v e_end = true /\ (e_end <> S754_zero true -> v = e_end)) /\
  (is_finite e_end = true -> is_finite e_start = true ->
   (0 < r_decay)%R ->
   (forall (steps : Z) (n : nat),
      (0 <= steps < EpsilonGreedyPolicy.float_max_int)%Z ->
      EpsilonGreedyPolicy.eps_threshold
        (EpsilonGreedyPolicy.mk steps r_end r_start r_decay n)
        = Ok (r_end + (r_start - r_end) * exp (- IZR steps / r_decay))%R) /\
   ((r_end < r_start)%R ->
      forall s s' : Z, (s <= s')%Z -> (formula s' <= formula s)%R) /\
   Un_cv (fun n => formula (Z.of_nat n)) r_end).
Proof.
  intros threshold r_end r_start r_decay formula. split_and!.
  - intros steps e. apply eps_threshold_binary64_value.
  - apply eps_threshold_binary64_at_zero.
  - intros steps q. apply eps_threshold_binary64_underflow.
  - intros _ _ Hd. split_and!.
    + intros steps n Hs.
      rewrite eps_threshold_schedule by done.
      unfold EpsilonGreedyPolicy.schedule. simpl. do 4 f_equal.
      unfold Rdiv. ring.
    + intros Hse s s' Hs. by apply schedule_non_increasing.
    + by apply schedule_converges.
Qed.

(** With [eps_end = 0.03], [eps_start = 0.3] and [eps_decay = 1000.0]: the
    threshold at counter zero is [0.30000000000000004]; at counter one, with
    a library whose [exp] underflows there, it compares equal to [0.03]; the
    formula at counter five is at most the formula at counter two. *)
Lemma exploration_threshold_properties_witness :
  let threshold :=
    EpsilonGreedyPolicy.eps_threshold_binary64 (H := Fixture.coarse_libm)
      Fixture.d0_03 Fixture.d0_3 Fixture.d1000 in
  let formula :=
    EpsilonGreedyPolicy.schedule (F64.to_R Fixture.d0_03)
      (F64.to_R Fixture.d0_3) (F64.to_R Fixture.d1000) in
  threshold 0%Z = Ok Fixture.d0_3_up /\
  (exists v, threshold 1%Z = Ok v /\ SFeqb v Fixture.d0_03 = true) /\
  (formula 5%Z <= formula 2%Z)%R.
Proof.
  intros threshold formula.
  destruct (exploration_threshold_properties (H := Fixture.coarse_libm)
              Fixture.d0_03 Fixture.d0_3 Fixture.d1000)
    as (_ & Hzero & Hunder & Hreal).
  split; [exact (Hzero eq_refl eq_refl eq_refl)|]. split.
  - destruct (Hunder 1%Z (S754_finite true 4611686018427388 (-62))
                eq_refl eq_refl eq_refl eq_refl) as (v & Hv & Heq & _).
    by exists v.
  - assert (Hp58 : (0 < powerRZ 2 (-58))%R) by (apply powerRZ_lt; lra).
    assert (Hp43 : (0 < powerRZ 2 (-43))%R) by (apply powerRZ_lt; lra).
    assert (Hp54 : powerRZ 2 (-54) = (16 * powerRZ 2 (-58))%R).
    { change (-54)%Z with (4 + -58)%Z. rewrite powerRZ_add by lra.
      simpl (powerRZ 2 4). ring. }
    destruct Hreal as (_ & Hmono & _); [done | done | |].
    + unfold F64.to_R, Fixture.d1000. cbn [cond_Zopp]. lra.
    + apply Hmono; [|lia].
      unfold F64.to_R, Fixture.d0_03, Fixture.d0_3. cbn [cond_Zopp].
      rewrite Hp54. lra.
Defined.

(** C5 as stated fails in two places.  At counter zero the computed value
    is the rounded sum, not [eps_start]: with [eps_end = 0.03],
    [eps_start = 0.3] (and [eps_decay = 1000.0]) it is
    [0.30000000000000004], whatever the C library.  And nothing keeps
    [eps_decay] positive: with [eps_start = 1], [eps_end = 0] and
    [eps_decay = -1] the formula gives [1] at counter 0 and [exp 1] at
    counter 1. *)
Lemma threshold_not_as_stated :
  (forall L : Libm,
     EpsilonGreedyPolicy.eps_threshold_binary64 (H := L)
       Fixture.d0_03 Fixture.d0_3 Fixture.d1000 0 = Ok Fixture.d0_3_up) /\
  SFeqb Fixture.d0_3_up Fixture.d0_3 = false /\
  let p steps := EpsilonGreedyPolicy.mk steps 0 1 (-1) 2 in
  (EpsilonGreedyPolicy.eps_end (p 0%Z) < EpsilonGreedyPolicy.eps_start (p 0%Z))%R /\
  exists v0 v1 : R,
    EpsilonGreedyPolicy.eps_threshold (p 0%Z) = Ok v0 /\
    EpsilonGreedyPolicy.eps_threshold (p 1%Z) = Ok v1 /\
    (v0 < v1)%R.
Proof.
  split; [|split; [reflexivity|]].
  { intros L.
    exact (eps_threshold_binary64_at_zero (H := L) Fixture.d0_03 Fixture.d0_3
             Fixture.d1000 eq_refl eq_refl eq_refl). }
  intros p. split; [simpl; lra|].
  exists 1%R, (exp 1).
  pose proof exp_max_pos as Hmax. unfold EpsilonGreedyPolicy.exp_max in Hmax.
  split_and!.
  - unfold EpsilonGreedyPolicy.eps_threshold, EpsilonGreedyPolicy.float_of_int,
      EpsilonGreedyPolicy.float_div, EpsilonGreedyPolicy.math_exp. simpl.
    destruct (Req_dec_T (-1) 0); [lra|]. simpl.
    replace (-1 * 0 / -1)%R with 0%R by (unfold Rdiv; ring).
    destruct (Rlt_dec _ 0); [unfold EpsilonGreedyPolicy.exp_max in *; lra|].
    simpl. rewrite exp_0. f_equal. ring.
  - unfold EpsilonGreedyPolicy.eps_threshold, EpsilonGreedyPolicy.float_of_int,
      EpsilonGreedyPolicy.float_div, EpsilonGreedyPolicy.math_exp. simpl.
    destruct (Req_dec_T (-1) 0); [lra|]. simpl.
    replace (-1 * 1 / -1)%R with 1%R by (unfold Rdiv; field).
    destruct (Rlt_dec _ 1); [unfold EpsilonGreedyPolicy.exp_max in *; lra|].
    simpl. f_equal. ring.
  - pose proof (exp_ineq1 1 ltac:(lra)). lra.
Qed.

(** ** The step counter *)

Section steps_done.
Context `{Torch} `{Env}.
Import EpsilonGreedyPolicy.
Implicit Types (p : EpsilonGreedyPolicy.t) (w : World).

(** A call leaves the policy as it was (when the threshold raises) or with
    the counter one up; the other fields never move. *)
Lemma select_action_policy p state params g :
  let p' := (select_action p state params g).2.1 in
  (p' = p /\ exists e, eps_threshold p = Raise e) \/
  (p' = increment p /\ exists eps, eps_threshold p = Ok eps).
Proof.
  unfold select_action. simpl.
  destruct (eps_threshold p) as [eps|e]; simpl; [right|left; eauto].
  split; [|eauto].
  destruct (Rlt_dec eps _); [done|]. by destruct (randint0 _ _).
Qed.

Lemma select_action_increments p state params g :
  (0 < eps_decay p)%R -> (0 <= steps_done p < float_max_int)%Z ->
  (select_action p state params g).2.1 = increment p.
Proof.
  intros Hd Hs.
  destruct (select_action_policy p state params g) as [[_ [e He]]|[Hp _]];
    [|done].
  by rewrite eps_threshold_schedule in He.
Qed.

Lemma soft_update_policy tau w : policy (soft_update tau w).2 = policy w.
Proof.
  unfold soft_update. destruct (soft_update_loop _ _ _); [|done].
  by destruct (load_state_dict _ _).
Qed.

(** The loop body changes the policy through [select_action] alone. *)
Lemma dqn_step_policy cfg state w :
  policy (dqn_step cfg state w).2 =
    (select_action (policy w) state (parameters (nets w policy_net)) (gen w)).2.1.
Proof.
  unfold dqn_step.
  destruct (select_action _ _ _ _) as [[a|e] [p g]]; simpl; [|done].
  destruct (env_step _ _) as [[[observation r] done] e].
  set (w3 := set_replay _ _).
  pose proof (optimize_model_frame_of policy_net (cfg_batch_size cfg)
                (cfg_gamma cfg) target_net w3) as (_ & _ & Hpol & _).
  destruct (optimize_model _ _ _ _ w3) as [[[]|e'] w4]; simpl in *; [|done].
  pose proof (soft_update_policy (cfg_tau cfg) w4) as Hpol'.
  destruct (soft_update _ w4) as [[[]|e'] w5]; simpl in *; congruence.
Qed.

Lemma dqn_reset_policy w : policy (dqn_reset w).2 = policy w.
Proof. unfold dqn_reset. by destruct (env_reset _). Qed.

Lemma run_event_steps cfg w w' :
  run_event cfg w w' ->
  steps_done (policy w') = steps_done (policy w) \/
  steps_done (policy w') = (steps_done (policy w) + 1)%Z.
Proof.
  intros [w0|w0 state].
  - left. by rewrite dqn_reset_policy.
  - rewrite dqn_step_policy.
    destruct (select_action_policy (policy w0) state
                (parameters (nets w0 policy_net)) (gen w0))
      as [[-> _]|[-> _]]; [by left|by right].
Qed.

Lemma run_steps_monotone cfg w w' :
  rtc (run_event cfg) w w' ->
  (steps_done (policy w) <= steps_done (policy w'))%Z.
Proof.
  induction 1 as [|w1 w2 w3 Hev _ IH]; [done|].
  apply run_event_steps in Hev. lia.
Qed.
End steps_done.

(** C9 (amended).  A call of [select_action] with a positive [eps_decay]
    (and a counter a float can hold) leaves the counter exactly one higher,
    whichever branch it takes and whether or not the estimator then raises;
    no call lowers the counter or changes any other field of the policy; a
    pass through the loop body changes the policy through [select_action]
    alone, an episode start, the optimizer step and the soft update leave it
    as it was; so over a run the counter never decreases. *)
Theorem steps_done_counts_calls `{Torch} `{Env} (cfg : Config) (w : World)
    (state : list spec_float) :
  let p := policy w in
  let call := EpsilonGreedyPolicy.select_action p state
                (parameters (nets w policy_net)) (gen w) in
  ((0 < EpsilonGreedyPolicy.eps_decay p)%R ->
   (0 <= EpsilonGreedyPolicy.steps_done p < EpsilonGreedyPolicy.float_max_int)%Z ->
   EpsilonGreedyPolicy.steps_done call.2.1
     = (EpsilonGreedyPolicy.steps_done p + 1)%Z) /\
  (call.2.1 = p \/ call.2.1 = EpsilonGreedyPolicy.increment p) /\
  policy (dqn_step cfg state w).2 = call.2.1 /\
  policy (dqn_reset w).2 = p /\
  (forall self target batch_size gamma,
     policy (optimize_model self batch_size gamma target w).2 = p) /\
  (forall tau, policy (soft_update tau w).2 = p) /\
  (forall w', rtc (run_event cfg) w w' ->
     (EpsilonGreedyPolicy.steps_done p
        <= EpsilonGreedyPolicy.steps_done (policy w'))%Z).
Proof.
  intros p call. split_and!.
  - intros Hd Hs. unfold call. by rewrite select_action_increments.
  - destruct (select_action_policy p state (parameters (nets w policy_net))
                (gen w)) as [[Hp _]|[Hp _]]; [by left|by right].
  - apply dqn_step_policy.
  - apply dqn_reset_policy.
  - intros self target batch_size gamma.
    by destruct (optimize_model_frame_of self batch_size gamma target w)
      as (_ & _ & Hpol & _).
  - intros tau. apply soft_update_policy.
  - intros w'. apply run_steps_monotone.
Qed.

Lemma steps_done_counts_calls_witness :
  let w := Fixture.world ∅ ∅ (ReplayMemory_init 4) 1000 in
  let call := EpsilonGreedyPolicy.select_action (H := Fixture.constant_torch)
                (policy w) [F32.zero] (parameters (nets w policy_net)) (gen w) in
  (0 < EpsilonGreedyPolicy.eps_decay (policy w))%R /\
  EpsilonGreedyPolicy.steps_done call.2.1 = 1%Z.
Proof.
  intros w call.
  assert (Hd : (0 < EpsilonGreedyPolicy.eps_decay (policy w))%R)
    by (simpl; lra).
  split; [exact Hd|].
  destruct (steps_done_counts_calls
              {| cfg_eps_start := 0.9; cfg_eps_end := 0.05; cfg_eps_decay := 1000;
                 cfg_gamma := F64.one; cfg_N := 4; cfg_tau := F64.one;
                 cfg_batch_size := 2 |} w [F32.zero]) as (Hinc & _).
  apply (Hinc Hd). simpl. split; [lia|]. apply float_max_int_pos.
Defined.

(** C9 as stated fails for [eps_decay = 0]: the division of line 122 raises
    before line 124, and the call leaves the counter where it was. *)
Lemma select_action_raises_before_increment :
  let p := EpsilonGreedyPolicy.init 0.05 0.9 0 2 in
  let call := EpsilonGreedyPolicy.select_action (H := Fixture.constant_torch)
                p [F32.zero] ∅ Fixture.counting in
  call.1 = Raise ZeroDivisionError /\
  EpsilonGreedyPolicy.steps_done call.2.1 = EpsilonGreedyPolicy.steps_done p /\
  EpsilonGreedyPolicy.steps_done call.2.1
    <> (EpsilonGreedyPolicy.steps_done p + 1)%Z.
Proof.
  intros p call.
  assert (Hth : EpsilonGreedyPolicy.eps_threshold p = Raise ZeroDivisionError).
  { unfold EpsilonGreedyPolicy.eps_threshold, EpsilonGreedyPolicy.float_of_int,
      EpsilonGreedyPolicy.float_div.
    pose proof float_max_int_pos.
    destruct (Z.leb_spec EpsilonGreedyPolicy.float_max_int
                (Z.abs (EpsilonGreedyPolicy.steps_done p))) as [Hle|_];
      [simpl in Hle; lia|].
    simpl. by destruct (Req_dec_T 0 0). }
  unfold call, EpsilonGreedyPolicy.select_action.
  simpl EpsilonGreedyPolicy.random_random. cbv iota beta. rewrite Hth.
  simpl. split_and!; [done|done|lia].
Qed.

(** * Further properties of the code *)

(** ** The replay memory, from any state *)

(** X1.  Pushing into a buffer that is within its capacity, whatever it
    holds, leaves the last [maxlen] elements of the old content followed by
    the pushed transitions, never changes the capacity, and never leaves more
    than [maxlen] elements. *)
Theorem push_all_from_any_buffer (m : ReplayMemory) (ts : list Transition) :
  len m <= maxlen m ->
  let m' := push_all m ts in
  maxlen m' = maxlen m /\
  memory m' = drop (length (memory m ++ ts) - maxlen m) (memory m ++ ts) /\
  len m' = Nat.min (len m + length ts) (maxlen m).
Proof.
  intros Hm m'. subst m'.
  rewrite push_all_maxlen. split; [done|].
  unfold len in *. rewrite push_all_memory by done. split; [done|].
  rewrite length_drop, length_app. lia.
Qed.

Lemma push_all_from_any_buffer_witness :
  let t i := mkTransition [] i None F32.zero in
  let m := {| maxlen := 2; memory := [t 0; t 1]%Z |} in
  len m <= maxlen m /\
  memory (push_all m [t 2]%Z) = [t 1; t 2]%Z.
Proof.
  intros t m. split; [cbn; lia|].
  destruct (push_all_from_any_buffer m [t 2]%Z) as (_ & Hmem & _); [cbn; lia|].
  rewrite Hmem. reflexivity.
Defined.

(** ** Sampling the whole buffer *)

(** X2.  [sample] with [k] equal to the size returns every transition of the
    buffer, each position once: the result is a permutation of the buffer. *)
Theorem sample_whole_buffer_is_permutation (m : ReplayMemory) (g : Random) :
  exists (ts : list Transition) (g' : Random),
    sample m (len m) g = (Ok ts, (m, g')) /\ ts ≡ₚ memory m.
Proof.
  unfold sample, random_sample, len.
  rewrite Nat.leb_refl.
  destruct (sample_loop_spec (indexed (memory m)) (length (memory m))
              (length (memory m)) g) as (ps & Hps & Hlen & Hnd & Hsub).
  { unfold indexed. rewrite length_zip_with, length_seq. lia. }
  { eapply sublist_NoDup; [apply indexed_NoDup | apply sublist_take]. }
  pose proof (sample_loop_fmap snd (indexed (memory m)) (length (memory m))
                (length (memory m)) g) as Hfmap.
  rewrite indexed_snd, Hps in Hfmap. rewrite Hfmap. simpl.
  eexists _, _. split; [done|].
  transitivity (snd <$> indexed (memory m)); [|by rewrite indexed_snd].
  apply fmap_Permutation.
  apply submseteq_length_Permutation.
  - apply NoDup_submseteq; [done|]. intros x Hx.
    eapply subseteq_take. by apply Hsub.
  - unfold indexed. rewrite length_zip_with, length_seq. lia.
Qed.

(** ** The optimizer step: an empty batch *)

(** X4.  With [batch_size = 0] the guard lets the call through, the sample is
    empty, and the transposition of line 60 raises [TypeError]; nothing has
    changed, not even the generator. *)
Theorem optimize_model_raises_on_empty_batch `{Torch} `{Env}
    (self target : net_ref) (gamma : f64) (w : World) :
  optimize_model self 0 gamma target w = (Raise TypeError, w).
Proof.
  unfold optimize_model, sample, random_sample. simpl. by destruct w.
Qed.

(** ** The bootstrapped target of non-terminal rows *)

Section non_terminal_rows.
Context `{Torch}.
Implicit Types (batch : list Transition).

Lemma result_mapM_length {A B} (f : A -> result B) (l : list A) (ys : list B) :
  result_mapM f l = Ok ys -> length ys = length l.
Proof.
  revert ys. induction l as [|x l IH]; intros ys; simpl.
  - by intros [= <-].
  - destruct (f x) as [y|e]; [|done]. simpl.
    destruct (result_mapM f l) as [ys'|e]; [|done]. simpl.
    intros [= <-]. simpl. by rewrite (IH ys').
Qed.

(** The values computed for the non-final next states land, in order, on the
    rows that have a next state. *)
Lemma masked_fill_marked (f : list spec_float -> result f32) batch
    (dst vals : list f32) (i : nat) (t : Transition) (s : list spec_float) :
  result_mapM f (omap next_state batch) = Ok vals ->
  length dst = length batch ->
  batch !! i = Some t -> next_state t = Some s ->
  exists v, f s = Ok v /\
    masked_fill dst (non_final_mask batch) vals !! i = Some v.
Proof.
  revert dst vals i.
  induction batch as [|t0 batch IH]; intros dst vals i Hvals Hlen Hi Hs;
    [done|].
  destruct dst as [|d dst]; [done|]. simpl in Hlen.
  unfold non_final_mask in *. rewrite fmap_cons. cbn in Hvals.
  destruct (next_state t0) as [s0|] eqn:Hs0; cbn in Hvals.
  - destruct (f s0) as [v0|e] eqn:Hv0; [|done]. cbn in Hvals.
    destruct (result_mapM f (omap next_state batch)) as [vals'|e] eqn:Hv;
      [|done].
    cbn in Hvals. injection Hvals as <-. simpl.
    destruct i as [|i]; simpl in Hi.
    + injection Hi as <-. exists v0. split; [congruence|done].
    + apply (IH dst vals' i); [done|lia|done..].
  - simpl. destruct i as [|i]; simpl in Hi.
    + injection Hi as <-. congruence.
    + apply (IH dst vals i); [done|lia|done..].
Qed.
End non_terminal_rows.

(** X6.  When lines 60 to 90 go through, the row of a transition with a next
    state [s] gets, as its [next_state_values] entry, the largest output of
    the target estimator on [s], and as its expected value that entry times
    [gamma] (as a float32) plus the reward. *)
Theorem non_terminal_target_bootstraps `{Torch}
    (self_parameters target_parameters : gmap string (list spec_float))
    (gamma : f64) (batch : list Transition) (tg : Targets) (i : nat)
    (t : Transition) (s : list spec_float) :
  compute_targets self_parameters target_parameters gamma batch = Ok tg ->
  batch !! i = Some t -> next_state t = Some s ->
  exists v k,
    row_max (forward target_parameters s) = Ok (v, k) /\
    nsv tg !! i = Some v /\
    expected tg !! i =
      Some (F32.add (F32.mul v (F32.of_f64 gamma)) (reward t)).
Proof.
  intros (nfns & Hnf & Hvs & ->)%compute_targets_inv Hi Hs.
  unfold non_final_next_states, torch_cat in Hnf.
  destruct (omap next_state batch) as [|s0 rest] eqn:Ho; [done|].
  injection Hnf as <-.
  unfold next_state_values in Hvs.
  destruct (result_mapM _ (s0 :: rest)) as [vals|e] eqn:Hvals; [|done].
  simpl in Hvs. unfold masked_assign in Hvs. case_decide; [|done].
  injection Hvs as Hvs. rewrite <- Ho in Hvals.
  destruct (masked_fill_marked _ batch (replicate (length batch) F32.zero)
              vals i t s Hvals) as (v & Hv & Hfill);
    [by rewrite length_replicate|done..|].
  destruct (row_max (forward target_parameters s)) as [[v' k]|e] eqn:Hmax;
    [|done].
  simpl in Hv. injection Hv as ->.
  exists v, k. split; [done|]. rewrite <- Hvs. split; [done|].
  unfold expected_state_action_values.
  by rewrite lookup_zip_with, !list_lookup_fmap, Hfill, Hi.
Qed.

Lemma non_terminal_target_bootstraps_witness :
  let batch := [Fixture.terminal Fixture.two; Fixture.non_terminal F32.one] in
  exists tg v k,
    compute_targets (H := Fixture.constant_torch) ∅ ∅ F64.one batch = Ok tg /\
    row_max [F32.one] = Ok (v, k) /\
    nsv tg !! 1 = Some v.
Proof.
  intros batch.
  destruct (compute_targets (H := Fixture.constant_torch) ∅ ∅ F64.one batch)
    as [tg|e] eqn:Htg; [|by vm_compute in Htg].
  destruct (non_terminal_target_bootstraps (H := Fixture.constant_torch) ∅ ∅
              F64.one batch tg 1 (Fixture.non_terminal F32.one) [F32.one]
              Htg eq_refl eq_refl) as (v & k & Hmax & Hnsv & _).
  by exists tg, v, k.
Defined.

(** X7.  When lines 60 to 90 go through, the three vectors handed to the
    loss have one entry per batch row. *)
Theorem targets_have_batch_length `{Torch}
    (self_parameters target_parameters : gmap string (list spec_float))
    (gamma : f64) (batch : list Transition) (tg : Targets) :
  compute_targets self_parameters target_parameters gamma batch = Ok tg ->
  length (state_action_values tg) = length batch /\
  length (nsv tg) = length batch /\
  length (expected tg) = length batch.
Proof.
  intros Htg.
  pose proof Htg as (nfns & _ & Hvs & Hexp)%compute_targets_inv.
  apply next_state_values_length in Hvs.
  split_and!; [|done|].
  - unfold compute_targets in Htg.
    destruct batch as [|t batch]; [done|]. cbn [transpose_batch mbind result_bind] in Htg.
    destruct (non_final_next_states _) as [n|e]; [|done].
    cbn [mbind result_bind] in Htg.
    destruct (result_mapM _ (t :: batch)) as [sav|e] eqn:Hsav; [|done].
    cbn [mbind result_bind] in Htg.
    destruct (next_state_values _ _ _) as [vs|e]; [|done].
    cbn [mbind result_bind] in Htg. injection Htg as <-. simpl.
    by apply result_mapM_length in Hsav.
  - rewrite Hexp. unfold expected_state_action_values.
    rewrite length_zip_with, !length_fmap. lia.
Qed.

Lemma targets_have_batch_length_witness :
  let batch := [Fixture.terminal Fixture.two; Fixture.non_terminal F32.one] in
  exists tg,
    compute_targets (H := Fixture.constant_torch) ∅ ∅ F64.one batch = Ok tg /\
    length (state_action_values tg) = 2 /\
    length (nsv tg) = 2 /\ length (expected tg) = 2.
Proof.
  intros batch.
  destruct (compute_targets (H := Fixture.constant_torch) ∅ ∅ F64.one batch)
    as [tg|e] eqn:Htg; [|by vm_compute in Htg].
  exists tg. split; [done|].
  exact (targets_have_batch_length (H := Fixture.constant_torch) ∅ ∅ F64.one
           batch tg Htg).
Defined.

(** ** The greedy choice *)

Section greedy.
Implicit Types (x y z best v : spec_float) (row pre : list spec_float).








End greedy.



Lemma counting_first_draw :
  (EpsilonGreedyPolicy.random_random Fixture.counting).1 = 0%R.
Proof.
  unfold EpsilonGreedyPolicy.random_random. simpl.
  unfold Rdiv. by rewrite Rmult_0_l.
Qed.




(** ** The loop body and the episode *)

Section loop.
Context `{Torch} `{Env}.
Import EpsilonGreedyPolicy.
Implicit Types (w : World) (cfg : Config) (state : list spec_float).

Lemma soft_update_frame tau w :
  let w' := (soft_update tau w).2 in
  nets w' policy_net = nets w policy_net /\ replay w' = replay w /\
  gen w' = gen w /\ env w' = env w.
Proof.
  unfold soft_update. destruct (soft_update_loop _ _ _); [|done].
  destruct (load_state_dict _ _); [|done]. simpl.
  by rewrite fn_lookup_insert_ne.
Qed.

Lemma select_action_Ok_policy p state params g a :
  (select_action p state params g).1 = Ok a ->
  (select_action p state params g).2.1 = increment p.
Proof.
  intros Ha.
  destruct (select_action_policy p state params g) as [[_ [e He]]|[Hp _]];
    [|done].
  unfold select_action in Ha.
  destruct (random_random g). by rewrite He in Ha.
Qed.

(** What a pass through the loop body leaves in the buffer, whether or not
    the optimizer step or the soft update raise afterwards. *)
Lemma dqn_step_replay cfg state w a :
  (select_action (policy w) state (parameters (nets w policy_net)) (gen w)).1
    = Ok a ->
  replay (dqn_step cfg state w).2 =
    push (replay w) state a
      (if (env_step (env w) a).1.2 then None
       else Some (to_tensor (env_step (env w) a).1.1.1))
      (F32.of_f64 (env_step (env w) a).1.1.2).
Proof.
  intros Ha. unfold dqn_step.
  destruct (select_action _ _ _ _) as [[a'|e] [p g]]; simpl in Ha; [|done].
  injection Ha as ->. simpl.
  destruct (env_step (env w) a) as [[[observation r] done] e]. simpl.
  set (w3 := set_replay _ _).
  pose proof (optimize_model_frame_of policy_net (cfg_batch_size cfg)
                (cfg_gamma cfg) target_net w3) as (_ & Hrep & _).
  destruct (optimize_model _ _ _ _ w3) as [[[]|e'] w4]; simpl in *; [|done].
  pose proof (soft_update_frame (cfg_tau cfg) w4) as (_ & Hrep' & _).
  destruct (soft_update _ w4) as [[[]|e'] w5]; simpl in *; congruence.
Qed.

Lemma dqn_step_Ok cfg state w ns w' :
  dqn_step cfg state w = (Ok ns, w') ->
  exists a r,
    policy w' = increment (policy w) /\
    replay w' = push (replay w) state a ns r.
Proof.
  intros Hstep.
  pose proof (dqn_step_policy cfg state w) as Hpol.
  destruct (select_action (policy w) state (parameters (nets w policy_net))
              (gen w)) as [[a|e] [p g]] eqn:Hsel.
  - pose proof (dqn_step_replay cfg state w a) as Hrep.
    rewrite Hsel in Hrep. specialize (Hrep eq_refl).
    pose proof (select_action_Ok_policy (policy w) state
                  (parameters (nets w policy_net)) (gen w) a) as Hinc.
    rewrite Hsel in Hinc. specialize (Hinc eq_refl). simpl in Hinc, Hpol.
    rewrite Hstep in Hpol, Hrep. simpl in Hpol, Hrep.
    exists a, (F32.of_f64 (env_step (env w) a).1.1.2).
    split; [congruence|]. rewrite Hrep. f_equal.
    unfold dqn_step in Hstep. rewrite Hsel in Hstep. simpl in Hstep.
    destruct (env_step (env w) a) as [[[observation r] done] e]. simpl.
    destruct (optimize_model _ _ _ _ _) as [[[]|e'] w4]; [|done].
    destruct (soft_update _ w4) as [[[]|e'] w5]; [|done].
    by injection Hstep as <- _.
  - unfold dqn_step in Hstep. by rewrite Hsel in Hstep.
Qed.

Lemma push_room (m : ReplayMemory) s a ns r :
  len m < maxlen m ->
  memory (push m s a ns r) = memory m ++ [mkTransition s a ns r].
Proof.
  unfold len. intros Hroom. simpl. unfold deque_append.
  rewrite length_app. simpl.
  by destruct (Nat.ltb_spec (maxlen m) (length (memory m) + 1)); [lia|].
Qed.

Lemma push_len (m : ReplayMemory) s a ns r :
  len m <= maxlen m ->
  len (push m s a ns r) = Nat.min (len m + 1) (maxlen m).
Proof.
  unfold len. intros Hm. simpl.
  rewrite deque_append_drop by done.
  rewrite length_drop, length_app. simpl. lia.
Qed.

(** An episode that ends on pass [t]. *)
Lemma episode_spec fuel cfg state w t w' :
  episode fuel cfg state w = (Ok (Some t), w') ->
  1 <= t <= fuel /\
  steps_done (policy w') = (steps_done (policy w) + Z.of_nat t)%Z /\
  maxlen (replay w') = maxlen (replay w) /\
  (len (replay w) <= maxlen (replay w) ->
   len (replay w') = Nat.min (len (replay w) + t) (maxlen (replay w))) /\
  (len (replay w) + t <= maxlen (replay w) ->
   exists trail, memory (replay w') = memory (replay w) ++ trail /\
     length trail = t /\ chain state trail).
Proof.
  revert state w t w'. induction fuel as [|fuel IH]; intros state w t w' Hep;
    [done|].
  simpl in Hep.
  destruct (dqn_step cfg state w) as [[[state'|]|e] w1] eqn:Hstep; [| |done].
  - destruct (episode fuel cfg state' w1) as [[[t'|]|e] w2] eqn:Hep';
      [|done..].
    injection Hep as <- <-.
    destruct (dqn_step_Ok _ _ _ _ _ Hstep) as (a & r & Hpol & Hrep).
    destruct (IH _ _ _ _ Hep') as (Ht & Hsteps & Hmax & Hlen & Hchain).
    rewrite Hpol in Hsteps. rewrite Hrep in Hmax, Hlen, Hchain.
    split; [lia|]. split_and!.
    + rewrite Hsteps. simpl. lia.
    + by rewrite Hmax.
    + intros Hm. rewrite Hlen; rewrite push_len by done; simpl; lia.
    + intros Hm.
      destruct Hchain as (trail & Hmem & Hlt & Hch).
      { rewrite push_len by lia. simpl. lia. }
      rewrite push_room in Hmem by lia.
      exists (mkTransition state a (Some state') r :: trail). split_and!.
      * by rewrite Hmem, <- (assoc_L (++)).
      * simpl. lia.
      * by apply (chain_step (mkTransition state a (Some state') r) state').
  - injection Hep as <- <-.
    destruct (dqn_step_Ok _ _ _ _ _ Hstep) as (a & r & Hpol & Hrep).
    rewrite Hpol, Hrep. split; [lia|]. split_and!.
    + simpl. lia.
    + done.
    + intros Hm. by rewrite push_len.
    + intros Hm. exists [mkTransition state a None r]. split_and!.
      * apply push_room. lia.
      * done.
      * by apply (chain_last (mkTransition state a None r)).
Qed.
End loop.

Section run.
Context `{Torch} `{Env}.
Import EpsilonGreedyPolicy.
Implicit Types (w : World) (cfg : Config) (state : list spec_float).

Lemma dqn_reset_replay w : replay (dqn_reset w).2 = replay w.
Proof. unfold dqn_reset. by destruct (env_reset _). Qed.

Lemma push_len_le (m : ReplayMemory) s a ns r :
  len (push m s a ns r) <= len m + 1.
Proof.
  unfold len. simpl. unfold deque_append.
  destruct (_ <? _); [|rewrite length_app; simpl; lia].
  destruct (memory m); simpl; [lia|]. rewrite length_app. simpl. lia.
Qed.

(** A run of whole episodes that ends with [k] passes in all. *)
Lemma dqn_episodes_spec fuel cfg episodes w k w' :
  dqn_episodes fuel cfg episodes w = (Ok (Some k), w') ->
  episodes <= k <= episodes * fuel /\
  steps_done (policy w') = (steps_done (policy w) + Z.of_nat k)%Z /\
  maxlen (replay w') = maxlen (replay w) /\
  (len (replay w) <= maxlen (replay w) ->
   len (replay w') = Nat.min (len (replay w) + k) (maxlen (replay w))).
Proof.
  revert w k w'. induction episodes as [|n IH]; intros w k w' Hrun.
  - simpl in Hrun. injection Hrun as <- <-.
    split; [lia|]. split_and!; [lia|done|lia].
  - simpl in Hrun.
    pose proof (dqn_reset_policy w) as Hpol0.
    pose proof (dqn_reset_replay w) as Hrep0.
    destruct (dqn_reset w) as [state w1]. simpl in Hpol0, Hrep0.
    destruct (episode fuel cfg state w1) as [[[t|]|e] w2] eqn:Hep; [|done..].
    destruct (dqn_episodes fuel cfg n w2) as [[[m|]|e] w3] eqn:Hrest;
      [|done..].
    injection Hrun as <- <-.
    destruct (episode_spec _ _ _ _ _ _ Hep) as (Ht & Hs1 & Hm1 & Hl1 & _).
    destruct (IH _ _ _ Hrest) as (Hk & Hs2 & Hm2 & Hl2).
    rewrite Hpol0 in Hs1. rewrite Hrep0 in Hm1, Hl1.
    split; [nia|]. split_and!.
    + rewrite Hs2, Hs1. lia.
    + by rewrite Hm2.
    + intros Hm. specialize (Hl1 Hm). rewrite Hm1 in Hl2.
      rewrite Hl2 by lia. lia.
Qed.
End run.

(** X10.  A pass through the loop body that gets an action from
    [select_action] pushes exactly one transition: the current state, that
    action, the next state (absent when the environment says [done]) and a
    reward tensor (line 172 leaves its dtype to the value; nothing is said
    of it here); this holds also when the optimizer step or the soft update
    raises afterwards.  A pass whose [select_action] raises pushes
    nothing. *)
Theorem loop_body_pushes_the_step `{Torch} `{Env} (cfg : Config)
    (state : list spec_float) (w : World) :
  match (EpsilonGreedyPolicy.select_action (policy w) state
           (parameters (nets w policy_net)) (gen w)).1 with
  | Ok a =>
      exists reward_tensor,
        replay (dqn_step cfg state w).2 =
          push (replay w) state a
            (if (env_step (env w) a).1.2 then None
             else Some (to_tensor (env_step (env w) a).1.1.1))
            reward_tensor
  | Raise _ => replay (dqn_step cfg state w).2 = replay w
  end.
Proof.
  destruct (EpsilonGreedyPolicy.select_action _ _ _ _).1 as [a|e] eqn:Hsel.
  - eexists. by apply dqn_step_replay.
  - unfold dqn_step.
    destruct (EpsilonGreedyPolicy.select_action _ _ _ _) as [[a|e'] [p g]];
      [done|]. done.
Qed.

(** X11.  Warm-up: while the buffer, counting the transition of the current
    pass, holds fewer than [batch_size] transitions, a pass through the loop
    body leaves the acting module (parameters and optimizer) as it was. *)
Theorem loop_body_warm_up_keeps_policy_net `{Torch} `{Env} (cfg : Config)
    (state : list spec_float) (w : World) :
  len (replay w) + 1 < cfg_batch_size cfg ->
  nets (dqn_step cfg state w).2 policy_net = nets w policy_net.
Proof.
  intros Hsmall. unfold dqn_step.
  destruct (EpsilonGreedyPolicy.select_action _ _ _ _) as [[a|e] [p g]];
    [|done]. simpl.
  destruct (env_step _ _) as [[[observation r] done] e].
  set (ns := if done then None else Some (to_tensor observation)).
  set (w3 := set_replay _ _).
  assert (Hopt : optimize_model policy_net (cfg_batch_size cfg) (cfg_gamma cfg)
                   target_net w3 = (Ok (), w3)).
  { unfold optimize_model.
    pose proof (push_len_le (replay w) state a ns (F32.of_f64 r)).
    destruct (Nat.ltb_spec (len (replay w3)) (cfg_batch_size cfg)) as [_|Hge];
      [done|]. simpl in Hge. lia. }
  rewrite Hopt.
  pose proof (soft_update_frame (cfg_tau cfg) w3) as (Hnet & _).
  by destruct (soft_update _ w3) as [[[]|e'] w5].
Qed.

(** X12.  An episode that ends on pass [t] has called [select_action] [t]
    times: the counter is [t] higher, and [t] is between one and the number
    of passes allowed. *)
Theorem episode_advances_counter `{Torch} `{Env} (fuel : nat) (cfg : Config)
    (state : list spec_float) (w w' : World) (t : nat) :
  episode fuel cfg state w = (Ok (Some t), w') ->
  1 <= t <= fuel /\
  EpsilonGreedyPolicy.steps_done (policy w')
    = (EpsilonGreedyPolicy.steps_done (policy w) + Z.of_nat t)%Z.
Proof.
  intros Hep. by destruct (episode_spec _ _ _ _ _ _ Hep) as (? & ? & _).
Qed.

(** X13.  An episode that ends on pass [t] has pushed [t] transitions: the
    capacity is unchanged and, from a buffer within its capacity, the size is
    [min (size + t) capacity]. *)
Theorem episode_fills_buffer `{Torch} `{Env} (fuel : nat) (cfg : Config)
    (state : list spec_float) (w w' : World) (t : nat) :
  episode fuel cfg state w = (Ok (Some t), w') ->
  len (replay w) <= maxlen (replay w) ->
  maxlen (replay w') = maxlen (replay w) /\
  len (replay w') = Nat.min (len (replay w) + t) (maxlen (replay w)).
Proof.
  intros Hep Hm.
  destruct (episode_spec _ _ _ _ _ _ Hep) as (_ & _ & ? & Hlen & _). auto.
Qed.

(** X14.  When the buffer has room for them, the transitions an episode
    pushes form a chain from the episode's first state: each one starts in
    the next state of the one before, and exactly the last one is
    terminal. *)
Theorem episode_pushes_a_chain `{Torch} `{Env} (fuel : nat) (cfg : Config)
    (state : list spec_float) (w w' : World) (t : nat) :
  episode fuel cfg state w = (Ok (Some t), w') ->
  len (replay w) + t <= maxlen (replay w) ->
  exists trail,
    memory (replay w') = memory (replay w) ++ trail /\
    length trail = t /\ chain state trail.
Proof.
  intros Hep Hroom.
  destruct (episode_spec _ _ _ _ _ _ Hep) as (_ & _ & _ & _ & Hchain). auto.
Qed.

(** X15.  A run of [episodes] episodes that completes with [k] passes in all
    leaves the counter [k] higher and, from a buffer within its capacity, the
    buffer at size [min (size + k) capacity]; every episode has at least one
    pass. *)
Theorem run_counts_every_pass `{Torch} `{Env} (fuel : nat) (cfg : Config)
    (episodes : nat) (w w' : World) (k : nat) :
  dqn_episodes fuel cfg episodes w = (Ok (Some k), w') ->
  len (replay w) <= maxlen (replay w) ->
  episodes <= k /\
  EpsilonGreedyPolicy.steps_done (policy w')
    = (EpsilonGreedyPolicy.steps_done (policy w) + Z.of_nat k)%Z /\
  len (replay w') = Nat.min (len (replay w) + k) (maxlen (replay w)).
Proof.
  intros Hrun Hm.
  destruct (dqn_episodes_spec _ _ _ _ _ _ Hrun) as ([? _] & ? & _ & Hlen).
  auto.
Qed.

(** The fixture world, step by step: the first call explores and returns
    action 0, the environment ends the episode at once. *)
Lemma fixture_explore_call :
  let w := Fixture.world ∅ ∅ (ReplayMemory_init 4) 1000 in
  EpsilonGreedyPolicy.select_action (H := Fixture.constant_torch) (policy w)
    [F32.zero] ∅ Fixture.counting
  = (Ok 0%Z, (EpsilonGreedyPolicy.increment (policy w),
              {| tape := tape Fixture.counting; pos := 2 |})).
Proof.
  intros w.
  assert (Hth : EpsilonGreedyPolicy.eps_threshold (policy w)
                = Ok (EpsilonGreedyPolicy.schedule 0.05 0.9 1000 0)).
  { apply (eps_threshold_schedule (policy w)); [simpl; lra|].
    split; [simpl; lia | apply float_max_int_pos]. }
  pose proof counting_first_draw as Hu.
  unfold EpsilonGreedyPolicy.select_action.
  destruct (EpsilonGreedyPolicy.random_random Fixture.counting) as [u g1]
    eqn:Hrr.
  simpl in Hu. subst u. rewrite Hth, schedule_start.
  destruct (Rlt_dec 0.9 0) as [Hlt|_]; [lra|].
  unfold EpsilonGreedyPolicy.random_random in Hrr. injection Hrr as _ <-.
  reflexivity.
Qed.

Lemma fixture_episode :
  let w := Fixture.world ∅ ∅ (ReplayMemory_init 4) 1000 in
  exists w', episode 1 Fixture.config [F32.zero] w = (Ok (Some 1), w').
Proof.
  intros w. pose proof fixture_explore_call as Hcall.
  cbv zeta in Hcall. fold w in Hcall.
  unfold episode, dqn_step.
  change (parameters (nets w policy_net)) with (∅ : gmap string (list f32)).
  change (gen w) with Fixture.counting.
  rewrite Hcall.
  eexists. vm_compute. reflexivity.
Qed.

Lemma fixture_run :
  let w := Fixture.world ∅ ∅ (ReplayMemory_init 4) 1000 in
  exists w', dqn_episodes 1 Fixture.config 1 w = (Ok (Some 1), w').
Proof.
  intros w. destruct fixture_episode as [w' Hep]. fold w in Hep.
  assert (Hreset : dqn_reset w = ([F32.zero], w)) by reflexivity.
  exists w'. unfold dqn_episodes. by rewrite Hreset, Hep.
Qed.

(** The fixture policy early in a run: the threshold is at least [0.05] and
    the draw is far below it, so the call explores; with one action the
    random choice is action 0. *)
Lemma fixture_explore `{Torch} (p : EpsilonGreedyPolicy.t)
    (state : list spec_float) (params : gmap string (list spec_float))
    (g : Random) :
  EpsilonGreedyPolicy.eps_end p = 0.05%R ->
  EpsilonGreedyPolicy.eps_start p = 0.9%R ->
  EpsilonGreedyPolicy.eps_decay p = 1000%R ->
  EpsilonGreedyPolicy.n_actions p = 1 ->
  (0 <= EpsilonGreedyPolicy.steps_done p < 1000)%Z ->
  tape g (pos g) < 1000 ->
  EpsilonGreedyPolicy.select_action p state params g
    = (Ok 0%Z, (EpsilonGreedyPolicy.increment p, advance 2 g)).
Proof.
  intros Hend Hstart Hdecay Hn Hsteps Hdraw.
  assert (Hmax : (1000 < EpsilonGreedyPolicy.float_max_int)%Z) by done.
  assert (Hth : EpsilonGreedyPolicy.eps_threshold p
                = Ok (EpsilonGreedyPolicy.schedule 0.05 0.9 1000
                        (EpsilonGreedyPolicy.steps_done p))).
  { rewrite <- Hend, <- Hstart, <- Hdecay.
    apply eps_threshold_schedule; [rewrite Hdecay; lra | lia]. }
  unfold EpsilonGreedyPolicy.select_action, EpsilonGreedyPolicy.random_random.
  rewrite Hth.
  set (z := Z.of_nat (tape g (pos g))).
  assert (Hz : (0 <= z < 1000)%Z) by (unfold z; lia).
  rewrite (Z.mod_small z) by lia.
  change (2 ^ 53)%Z with 9007199254740992%Z.
  assert (Hz0 : (IZR z < 1000)%R) by (apply IZR_lt; lia).
  assert (Hlow : (0.05 <= EpsilonGreedyPolicy.schedule 0.05 0.9 1000
                            (EpsilonGreedyPolicy.steps_done p))%R).
  { unfold EpsilonGreedyPolicy.schedule.
    pose proof (exp_pos (-1 * IZR (EpsilonGreedyPolicy.steps_done p) / 1000)).
    nra. }
  destruct (Rlt_dec _ _) as [Hlt|_]; [lra|].
  unfold EpsilonGreedyPolicy.randint0. rewrite Hn.
  unfold randbelow, advance. cbn [tape pos]. rewrite Nat.mod_1_r.
  do 3 f_equal. lia.
Qed.

(** One pass of the loop body on the two-step environment during warm-up,
    with both modules empty. *)
Lemma two_step_pass (w : @World Fixture.constant_torch Fixture.two_step_env)
    (state : list spec_float) :
  EpsilonGreedyPolicy.eps_end (policy w) = 0.05%R ->
  EpsilonGreedyPolicy.eps_start (policy w) = 0.9%R ->
  EpsilonGreedyPolicy.eps_decay (policy w) = 1000%R ->
  EpsilonGreedyPolicy.n_actions (policy w) = 1 ->
  (0 <= EpsilonGreedyPolicy.steps_done (policy w) < 1000)%Z ->
  tape (gen w) (pos (gen w)) < 1000 ->
  parameters (nets w policy_net) = ∅ ->
  parameters (nets w target_net) = ∅ ->
  len (replay w) + 1 < 5 ->
  exists w1,
    dqn_step Fixture.config state w
      = (Ok (if env w then None else Some [F32.one]), w1) /\
    policy w1 = EpsilonGreedyPolicy.increment (policy w) /\
    gen w1 = advance 2 (gen w) /\
    parameters (nets w1 policy_net) = ∅ /\
    parameters (nets w1 target_net) = ∅ /\
    len (replay w1) <= len (replay w) + 1 /\
    maxlen (replay w1) = maxlen (replay w) /\
    env w1 = true.
Proof.
  intros Hend Hstart Hdecay Hn Hsteps Hdraw Hpol Htgt Hlen.
  unfold dqn_step.
  rewrite (fixture_explore (policy w) state _ (gen w)) by done.
  cbn [env set_env set_gen set_policy env_step Fixture.two_step_env].
  set (ns := if env w then None else Some (to_tensor [F64.one])).
  set (w3 := set_replay _ _).
  assert (Hrep : replay w3 = push (replay w) state 0 ns (F32.of_f64 F64.one))
    by done.
  assert (Hopt : optimize_model policy_net (cfg_batch_size Fixture.config)
                   (cfg_gamma Fixture.config) target_net w3 = (Ok (), w3)).
  { unfold optimize_model.
    pose proof (push_len_le (replay w) state 0 ns (F32.of_f64 F64.one)).
    destruct (Nat.ltb_spec (len (replay w3)) (cfg_batch_size Fixture.config))
      as [_|Hge]; [done|].
    rewrite Hrep in Hge. change (cfg_batch_size Fixture.config) with 5 in Hge.
    lia. }
  rewrite Hopt.
  assert (Hupd : soft_update (cfg_tau Fixture.config) w3
                 = (Ok (), set_net w3 target_net (nets w target_net))).
  { unfold soft_update.
    change (parameters (nets w3 policy_net))
      with (parameters (nets w policy_net)).
    change (nets w3 target_net) with (nets w target_net).
    rewrite Hpol, Htgt, map_to_list_empty. simpl soft_update_loop.
    unfold load_state_dict. rewrite decide_True by (by rewrite Htgt).
    do 2 f_equal. destruct (nets w target_net). simpl in Htgt.
    by subst. }
  rewrite Hupd. eexists. split.
  { unfold ns. by destruct (env w). }
  cbn [policy gen nets replay env set_net].
  rewrite fn_lookup_insert, fn_lookup_insert_ne by done.
  split_and!; try done.
  rewrite Hrep. apply push_len_le.
Qed.

(** On the two-step environment an episode from the empty buffer ends on
    its second pass. *)
Lemma two_step_episode :
  let w := Fixture.two_step_world (ReplayMemory_init 4) in
  exists w', episode 2 Fixture.config [F32.zero] w = (Ok (Some 2), w').
Proof.
  intros w.
  destruct (two_step_pass w [F32.zero])
    as (w1 & Hstep1 & Hp1 & Hg1 & Hpol1 & Htgt1 & Hlen1 & _ & He1);
    try done; try (simpl; lia).
  destruct (two_step_pass w1 [F32.one]) as (w2 & Hstep2 & _);
    rewrite ?Hp1, ?Hg1; try done; try (simpl in *; lia).
  rewrite He1 in Hstep2.
  assert (Hfirst : dqn_step Fixture.config [F32.zero] w
                   = (Ok (Some [F32.one]), w1)) by exact Hstep1.
  exists w2. cbn [episode]. by rewrite Hfirst, Hstep2.
Qed.

(** On the fixture world the pass pushes the transition of its one step:
    from state [0.0], action 0, no next state. *)
Lemma loop_body_pushes_the_step_witness :
  let w := Fixture.world ∅ ∅ (ReplayMemory_init 4) 1000 in
  exists reward_tensor,
    replay (dqn_step Fixture.config [F32.zero] w).2
      = push (replay w) [F32.zero] 0 None reward_tensor.
Proof.
  intros w.
  pose proof (loop_body_pushes_the_step Fixture.config [F32.zero] w) as Hpush.
  pose proof fixture_explore_call as Hcall. cbv zeta in Hcall.
  fold w in Hcall.
  change (parameters (nets w policy_net)) with (∅ : gmap string (list f32))
    in Hpush.
  change (gen w) with Fixture.counting in Hpush.
  rewrite Hcall in Hpush. exact Hpush.
Defined.

Lemma loop_body_warm_up_keeps_policy_net_witness :
  let w := Fixture.world ∅ ∅ (ReplayMemory_init 4) 1000 in
  len (replay w) + 1 < cfg_batch_size Fixture.config /\
  nets (dqn_step Fixture.config [F32.zero] w).2 policy_net = nets w policy_net.
Proof.
  intros w. split; [cbn; lia|].
  apply (loop_body_warm_up_keeps_policy_net Fixture.config [F32.zero] w).
  cbn. lia.
Defined.

Lemma episode_advances_counter_witness :
  let w := Fixture.world ∅ ∅ (ReplayMemory_init 4) 1000 in
  exists w',
    episode 1 Fixture.config [F32.zero] w = (Ok (Some 1), w') /\
    EpsilonGreedyPolicy.steps_done (policy w') = 1%Z.
Proof.
  intros w. destruct fixture_episode as [w' Hep]. fold w in Hep.
  exists w'. split; [exact Hep|].
  destruct (episode_advances_counter 1 Fixture.config [F32.zero] w w' 1 Hep)
    as [_ Hsteps].
  exact Hsteps.
Defined.

Lemma episode_fills_buffer_witness :
  let w := Fixture.world ∅ ∅ (ReplayMemory_init 4) 1000 in
  exists w',
    episode 1 Fixture.config [F32.zero] w = (Ok (Some 1), w') /\
    len (replay w) <= maxlen (replay w) /\
    len (replay w') = 1.
Proof.
  intros w. destruct fixture_episode as [w' Hep]. fold w in Hep.
  assert (Hm : len (replay w) <= maxlen (replay w)) by (cbn; lia).
  exists w'. split; [exact Hep|]. split; [exact Hm|].
  destruct (episode_fills_buffer 1 Fixture.config [F32.zero] w w' 1 Hep Hm)
    as [_ Hlen].
  exact Hlen.
Defined.

(** An episode of two passes on the two-step environment: the second
    transition starts where the first one led, and it alone is terminal. *)
Lemma episode_pushes_a_chain_witness :
  let w := Fixture.two_step_world (ReplayMemory_init 4) in
  exists w' t1 t2,
    episode 2 Fixture.config [F32.zero] w = (Ok (Some 2), w') /\
    len (replay w) + 2 <= maxlen (replay w) /\
    memory (replay w') = memory (replay w) ++ [t1; t2] /\
    state t1 = [F32.zero] /\
    next_state t1 = Some (state t2) /\
    next_state t2 = None.
Proof.
  intros w. destruct two_step_episode as [w' Hep]. fold w in Hep.
  assert (Hm : len (replay w) + 2 <= maxlen (replay w)) by (cbn; lia).
  destruct (episode_pushes_a_chain 2 Fixture.config [F32.zero] w w' 2 Hep Hm)
    as (trail & Hmem & Hlen & Hchain).
  destruct trail as [|t1 [|t2 [|t3 trail]]]; try done.
  exists w', t1, t2. split; [exact Hep|]. split; [exact Hm|].
  split; [exact Hmem|].
  inversion Hchain as [t Hlast Hs Ht|t s' trail' Hnext Hrest Hs Ht];
    subst.
  inversion Hrest as [t Hlast' Hs' Ht'|t s trail' Hnext' Hrest' Hs' Ht'];
    subst; [|inversion Hrest'].
  done.
Defined.

Lemma run_counts_every_pass_witness :
  let w := Fixture.world ∅ ∅ (ReplayMemory_init 4) 1000 in
  exists w',
    dqn_episodes 1 Fixture.config 1 w = (Ok (Some 1), w') /\
    len (replay w) <= maxlen (replay w) /\
    EpsilonGreedyPolicy.steps_done (policy w') = 1%Z /\
    len (replay w') = 1.
Proof.
  intros w. destruct fixture_run as [w' Hrun]. fold w in Hrun.
  assert (Hm : len (replay w) <= maxlen (replay w)) by (cbn; lia).
  exists w'. split; [exact Hrun|]. split; [exact Hm|].
  destruct (run_counts_every_pass 1 Fixture.config 1 w w' 1 Hrun Hm)
    as (_ & Hsteps & Hlen).
  split; [exact Hsteps|exact Hlen].
Defined.

(** ** The soft update: a missing key *)

Section soft_update_errors.
Context `{Torch} `{Env}.
Implicit Types (pol tgt : gmap string (list spec_float)) (w : World).

Lemma soft_update_loop_missing_key tau (items : list (string * list f32)) tgt :
  NoDup items.*1 ->
  (exists k a, (k, a) ∈ items /\ tgt !! k = None) ->
  (forall k a b, (k, a) ∈ items -> tgt !! k = Some b -> length a = length b) ->
  soft_update_loop tau items tgt = Raise KeyError.
Proof.
  revert tgt. induction items as [|[key a] items IH];
    intros tgt Hnd (k0 & a0 & Hin & Hnone) Hsize.
  - by apply elem_of_nil in Hin.
  - rewrite fmap_cons in Hnd. apply list.NoDup_cons in Hnd as [Hkey Hnd].
    simpl. destruct (tgt !! key) as [b|] eqn:Hb; [|done].
    unfold blend. rewrite decide_True by (apply (Hsize key a b); [left|done]).
    simpl. apply IH; [done| |].
    + apply elem_of_cons in Hin as [[= -> ->]|Hin]; [congruence|].
      exists k0, a0. split; [done|].
      rewrite lookup_insert_ne; [done|]. intros ->. congruence.
    + intros k a' b' Hk Hb'.
      destruct (decide (k = key)) as [->|Hne].
      * exfalso. apply Hkey. apply list_elem_of_fmap. by exists (key, a').
      * rewrite lookup_insert_ne in Hb' by done.
        apply (Hsize k a' b'); [by right|done].
Qed.
End soft_update_errors.

(** X16.  When the acting module has a parameter name that the target's
    state dict lacks (and the parameters they share have the same sizes), the
    soft update raises [KeyError] and leaves the world, the target module
    included, as it was. *)
Theorem soft_update_missing_key_raises `{Torch} `{Env} (tau : f64) (w : World) :
  let pol := parameters (nets w policy_net) in
  let tgt := parameters (nets w target_net) in
  (exists key a, pol !! key = Some a /\ tgt !! key = None) ->
  (forall key a b, pol !! key = Some a -> tgt !! key = Some b ->
     length a = length b) ->
  soft_update tau w = (Raise KeyError, w).
Proof.
  intros pol tgt (key & a & Ha & Hnone) Hsize. unfold soft_update.
  fold pol tgt.
  rewrite (soft_update_loop_missing_key tau (map_to_list pol) tgt); [done|..].
  - apply NoDup_fst_map_to_list.
  - exists key, a. split; [by apply elem_of_map_to_list|done].
  - intros k a' b' Hk%elem_of_map_to_list Hb'. by apply (Hsize k a' b').
Qed.

Lemma soft_update_missing_key_raises_witness :
  let w := Fixture.world {["w"%string := [F32.one]]} ∅ (ReplayMemory_init 1)
             1000 in
  soft_update F64.one w = (Raise KeyError, w).
Proof.
  intros w. apply (soft_update_missing_key_raises F64.one w).
  - exists "w"%string, [F32.one]. split; [apply lookup_singleton_eq|done].
  - intros key a b _ Hb. simpl in Hb. by rewrite lookup_empty in Hb.
Defined.

(** ** The whole run *)

(** X19.  A run of [dqn] that completes with [k] passes through the loop
    body ends with [steps_done = k] and with [min k N] transitions in the
    buffer; it has at least one pass per episode. *)
Theorem dqn_run_counts `{Torch} `{Env} (cfg : Config) (episodes fuel : nat)
    (e : env_t) (seed : nat) (g : Random) (k : nat) (w' : World) :
  dqn cfg episodes fuel e seed g = (Ok (Some k), Some w') ->
  episodes <= k /\
  EpsilonGreedyPolicy.steps_done (policy w') = Z.of_nat k /\
  len (replay w') = Nat.min k (cfg_N cfg) /\
  maxlen (replay w') = cfg_N cfg.
Proof.
  unfold dqn, dqn_setup.
  destruct (load_state_dict _ _) as [m|err]; [|done]. simpl.
  set (w := {| nets := _ |}).
  destruct (dqn_episodes fuel cfg episodes w) as [r w2] eqn:Hrun.
  intros [= -> ->].
  destruct (dqn_episodes_spec _ _ _ _ _ _ Hrun) as ([? _] & Hs & Hm & Hl).
  simpl in Hs, Hm, Hl. unfold len in *. simpl in Hl.
  split_and!; [done|lia| |done].
  rewrite Hl by lia. done.
Qed.

Lemma fixture_setup :
  dqn_setup (H := Fixture.constant_torch) (H0 := Fixture.unit_env)
    Fixture.config tt 0 Fixture.counting
  = Ok (Fixture.world ∅ ∅ (ReplayMemory_init 4) 1000).
Proof. reflexivity. Qed.

Lemma dqn_run_counts_witness :
  exists w',
    dqn (H := Fixture.constant_torch) (H0 := Fixture.unit_env) Fixture.config
      1 1 tt 0 Fixture.counting = (Ok (Some 1), Some w') /\
    EpsilonGreedyPolicy.steps_done (policy w') = 1%Z /\
    len (replay w') = 1.
Proof.
  destruct fixture_run as [w' Hrun]. exists w'.
  assert (Hdqn : dqn (H := Fixture.constant_torch) (H0 := Fixture.unit_env)
                   Fixture.config 1 1 tt 0 Fixture.counting
                 = (Ok (Some 1), Some w')).
  { unfold dqn. rewrite fixture_setup. by rewrite Hrun. }
  split; [exact Hdqn|].
  destruct (dqn_run_counts (H := Fixture.constant_torch)
              (H0 := Fixture.unit_env) Fixture.config 1 1 tt 0
              Fixture.counting 1 w' Hdqn)
    as (_ & Hs & Hl & _).
  split; [exact Hs|exact Hl].
Defined.

(** ** When the targets are defined *)

Section targets_defined.
Context `{Torch}.
Implicit Types (batch : list Transition).

Lemma result_mapM_Ok_inv {A B} (f : A -> result B) (l : list A) (ys : list B) :
  result_mapM f l = Ok ys -> Forall (fun x => exists y, f x = Ok y) l.
Proof.
  revert ys. induction l as [|x l IH]; intros ys Hys; [constructor|].
  simpl in Hys. destruct (f x) as [y|e] eqn:Hy; [|done]. simpl in Hys.
  destruct (result_mapM f l) as [ys'|e]; [|done].
  constructor; [eauto|]. by apply (IH ys').
Qed.

Lemma gather_row_Ok (row : list f32) (a : Z) (v : f32) :
  gather_row row a = Ok v -> (0 <= a)%Z /\ Z.to_nat a < length row.
Proof.
  unfold gather_row. destruct (Z.ltb_spec a 0); [done|].
  destruct (row !! Z.to_nat a) eqn:Hrow; [|done]. intros _.
  split; [done|]. by apply lookup_lt_Some in Hrow.
Qed.
End targets_defined.

(** X20.  Lines 60 to 90 go through only when the batch has a transition
    with a next state, every action of the batch indexes a column of the
    acting estimator's output on its state, and the target estimator's output
    on every next state of the batch has at least one column. *)
Theorem compute_targets_defined_only_if `{Torch}
    (self_parameters target_parameters : gmap string (list spec_float))
    (gamma : f64) (batch : list Transition) (tg : Targets) :
  compute_targets self_parameters target_parameters gamma batch = Ok tg ->
  Exists (fun t => is_Some (next_state t)) batch /\
  Forall (fun t => (0 <= action t)%Z /\
            Z.to_nat (action t) < length (forward self_parameters (state t)))
         batch /\
  Forall (fun t => forall s, next_state t = Some s ->
            forward target_parameters s <> []) batch.
Proof.
  intros Htg. unfold compute_targets in Htg.
  destruct batch as [|t0 batch0]; [done|].
  change (transpose_batch (t0 :: batch0)) with (Ok (t0 :: batch0)) in Htg.
  cbn [mbind result_bind] in Htg.
  remember (t0 :: batch0) as batch eqn:Hbatch. clear Hbatch.
  unfold non_final_next_states, torch_cat in Htg.
  destruct (omap next_state batch) as [|s0 rest] eqn:Ho; [done|].
  cbn [mbind result_bind] in Htg.
  destruct (result_mapM _ batch) as [sav|e] eqn:Hsav; [|done].
  cbn [mbind result_bind] in Htg.
  unfold next_state_values in Htg.
  destruct (result_mapM _ (s0 :: rest)) as [vals|e] eqn:Hvals; [|done].
  clear Htg. split_and!.
  - assert (Hs0 : s0 ∈ omap next_state batch) by (rewrite Ho; left).
    apply list_elem_of_omap in Hs0 as (t & Ht & Hs).
    apply list.Exists_exists. exists t. split; [done|]. by eexists.
  - apply result_mapM_Ok_inv in Hsav.
    eapply list.Forall_impl; [exact Hsav|].
    intros t [v Hv]. by apply gather_row_Ok in Hv.
  - apply result_mapM_Ok_inv in Hvals. rewrite <- Ho in Hvals.
    apply list.Forall_forall. intros t Ht s Hs Hrow.
    rewrite list.Forall_forall in Hvals.
    destruct (Hvals s) as [v Hv].
    { apply list_elem_of_omap. eauto. }
    by rewrite Hrow in Hv.
Qed.

Lemma compute_targets_defined_only_if_witness :
  let batch := [Fixture.non_terminal F32.one; Fixture.terminal Fixture.two] in
  (exists tg,
     compute_targets (H := Fixture.constant_torch) ∅ ∅ F64.one batch = Ok tg) /\
  Exists (fun t => is_Some (next_state t)) batch /\
  Forall (fun t => (0 <= action t)%Z /\
            Z.to_nat (action t)
              < length (@forward Fixture.constant_torch ∅ (state t)))
         batch.
Proof.
  intros batch.
  destruct (compute_targets (H := Fixture.constant_torch) ∅ ∅ F64.one batch)
    as [tg|e] eqn:Htg; [|by vm_compute in Htg].
  split; [by exists tg|].
  destruct (compute_targets_defined_only_if (H := Fixture.constant_torch)
              ∅ ∅ F64.one batch tg Htg) as (Hnf & Hact & _).
  split; [exact Hnf|exact Hact].
Defined.
